(** * AeroFoam: runtime selection of turbulence closures and solvers

    A shallow embedding of the selector classes of AeroFoamV2
    ([myTurbulence], [mySolver]), of the two turbulence closures they can
    allocate ([mySpalartAllmaras], [myKappaOmega]) and of the flow operator
    they are built against ([myNavierStokes]), as declared in the headers
    [myTurbulence.H], [mySpalartAllmaras.H], [myKappaOmega.H],
    [myNavierStokes.H], [myMesh.H] and [mySolver.H].

    Conventions.
    - A C++ [scalar] is a binary64 float (the kernel's primitive floats), a
      [label] is an integer, a [word] is a string, a [scalarField] is the list
      of its per-cell values.
    - An accessor that returns a [scalarField&] returns here the NAME of the
      member it refers to; the contents are read through [get]/[read].  Two
      accessors alias exactly when they return the same name.
    - The closure owned by the selector lives in a heap, the selector holds
      its address ([None] is the NULL pointer).
    - The bodies of the out-of-line methods ([advection], [solve], ...) are in
      the [.C] files; they are arbitrary state transformers here (class
      [Bodies]), and every theorem holds for all of them. *)

From Stdlib Require Import Floats ZArith.
From stdpp Require Import base strings list gmap pretty.

Set Warnings "-inexact-float".
Open Scope string_scope.

(** ** The OpenFOAM primitives the headers rely on *)

Module Foam.

Definition scalar : Type := float.
Definition label : Type := Z.
Definition word : Type := string.
Definition scalarField : Type := list scalar.
Definition vector : Type := (scalar * scalar * scalar)%type.
Definition vectorField : Type := list vector.

Bind Scope float_scope with scalar.
Bind Scope Z_scope with label.

(** [max( s1, s2 )] on scalars is [(s1 > s2) ? s1 : s2]. *)
Definition max (s1 s2 : scalar) : scalar :=
  if (s2 <? s1)%float then s1 else s2.

(** [max( f1, s2 )] on a field and a scalar is taken cell by cell. *)
Definition max_field (f1 : scalarField) (s2 : scalar) : scalarField :=
  (fun x => max x s2) <$> f1.

(** [scalarField( n, v )]: [n] cells, all equal to [v]. *)
Definition uniform (n : nat) (v : scalar) : scalarField := replicate n v.

(** [vectorField( n, vector(0, 0, 0) )]. *)
Definition zeroVectors (n : nat) : vectorField :=
  replicate n (0%float, 0%float, 0%float).

(** [dictionary::found] and [dictionary::lookup] (read as a [word]). *)
Definition found (d : gmap string word) (k : string) : bool :=
  bool_decide (is_Some (d !! k)).

Definition lookup (d : gmap string word) (k : string) : word :=
  default "" (d !! k).

(** [Foam::name( level )]: the decimal writing of an integer. *)
Definition name (i : label) : word := pretty i.

(** [s1 <= s2] on scalars, as a proposition (false on a NaN). *)
Definition scalar_le (s1 s2 : scalar) : Prop := (s1 <=? s2)%float = true.

(** [s1 < s2] on scalars, as a proposition (false on a NaN). *)
Definition scalar_lt (s1 s2 : scalar) : Prop := (s1 <? s2)%float = true.

Definition is_nan (s : scalar) : bool := PrimFloat.is_nan s.

End Foam.

Import Foam.

(** ** [Time]: the run-time database

    Of [Time] the headers use the control dictionary and, through the
    [IOobject] constructors of the fields, the persisted state of the case. *)

Module Time.

Record t := {
  (** [controlDict()] *)
  controlDict : gmap string word;
  (** contents of a field constructed from [( IOobject, mesh )] alone *)
  read : string -> scalarField;
  (** contents found on disk for a [READ_IF_PRESENT] field, if any *)
  readIfPresent : string -> option scalarField;
  (** [path()] *)
  path : string
}.

End Time.

(** ** [myMesh] (only tagging and size, [myMesh.H]) *)

Module myMesh.

Record t := {
  _id : label;
  _tag : word;
  (** [V().size()]: the number of control volumes *)
  V_size : nat
}.

(** The tagging part of the constructor: the primary mesh is ["*"], an
    agglomerated level [level > 0] is tagged by its number. *)
Definition ctor (ncells : nat) (level : label) : t :=
  {| _id := level;
     _tag := if (0 <? level)%Z then name level else "*";
     V_size := ncells |}.

Definition tag (this : t) : word := _tag this.

End myMesh.

(** ** [myNavierStokes] ([myNavierStokes.H]) *)

Module myNavierStokes.

Record t := {
  _tag : word;
  _time : Time.t;
  _mesh : myMesh.t;
  (** residuals and their references *)
  _residualRho : scalar;
  _residualM : scalar;
  _residualEt : scalar;
  _maxResidualRho : scalar;
  _maxResidualM : scalar;
  _maxResidualEt : scalar;
  (** rhs *)
  _rhsRho : scalarField;
  _rhsM : vectorField;
  _rhsEt : scalarField;
  (** laminar and turbulent stresses modelling *)
  _mu : scalarField;
  _muTur : scalarField;
  _kTur : scalarField;
  (** dual time stepping *)
  _dtsImplicit : scalarField;
  _dtsRho : scalarField;
  _dtsM : vectorField;
  _dtsEt : scalarField;
  (** external source terms *)
  _bodyRho : scalarField;
  _bodyM : vectorField;
  _bodyEt : scalarField
}.

Definition set_tag (w : word) (this : t) : t :=
  {| _tag := w; _time := _time this; _mesh := _mesh this;
     _residualRho := _residualRho this; _residualM := _residualM this;
     _residualEt := _residualEt this;
     _maxResidualRho := _maxResidualRho this;
     _maxResidualM := _maxResidualM this;
     _maxResidualEt := _maxResidualEt this;
     _rhsRho := _rhsRho this; _rhsM := _rhsM this; _rhsEt := _rhsEt this;
     _mu := _mu this; _muTur := _muTur this; _kTur := _kTur this;
     _dtsImplicit := _dtsImplicit this; _dtsRho := _dtsRho this;
     _dtsM := _dtsM this; _dtsEt := _dtsEt this;
     _bodyRho := _bodyRho this; _bodyM := _bodyM this;
     _bodyEt := _bodyEt this |}.

(** A [READ_IF_PRESENT] field with a uniform zero default. *)
Definition zeroOrRead (T : Time.t) (n : nat) (nm : string) : scalarField :=
  default (uniform n 0%float) (Time.readIfPresent T nm).

(** The constructor.  The primitive and conservative fields ([p], [U], [T],
    [rho], [m], [Et]) come from the thermodynamics collaborator and are
    left out; the write options set at the end are I/O flags. *)
Definition ctor (inputTime : Time.t) (inputMesh : myMesh.t) : t :=
  let n := myMesh.V_size inputMesh in
  let this :=
    {| _tag := "Euler"; _time := inputTime; _mesh := inputMesh;
       _residualRho := (-1)%float; _residualM := (-1)%float;
       _residualEt := (-1)%float;
       _maxResidualRho := 1.0e-16%float; _maxResidualM := 1.0e-16%float;
       _maxResidualEt := 1.0e-16%float;
       _rhsRho := uniform n 0%float; _rhsM := zeroVectors n;
       _rhsEt := uniform n 0%float;
       _mu := zeroOrRead inputTime n "mu";
       _muTur := zeroOrRead inputTime n "muTur";
       _kTur := zeroOrRead inputTime n "kTur";
       _dtsImplicit := uniform n 1%float;
       _dtsRho := uniform n 0%float; _dtsM := zeroVectors n;
       _dtsEt := uniform n 0%float;
       _bodyRho := uniform n 0%float; _bodyM := zeroVectors n;
       _bodyEt := uniform n 0%float |} in
  let this :=
    if found (Time.controlDict inputTime) "physics"
    then set_tag (lookup (Time.controlDict inputTime) "physics") this
    else this in
  let this := if String.eqb (_tag this) "Euler" then set_tag "E" this else this in
  let this :=
    if String.eqb (_tag this) "ReynoldsAveragedNavierStokes"
    then set_tag "RANS" this else this in
  this.

Definition tag (this : t) : word := _tag this.
Definition time (this : t) : Time.t := _time this.
Definition mesh (this : t) : myMesh.t := _mesh this.
Definition residualRho (this : t) : scalar := _residualRho this.
Definition residualM (this : t) : scalar := _residualM this.
Definition residualEt (this : t) : scalar := _residualEt this.

(** Modelled from the spec: [myNavierStokes::residual()] is only declared in
    the header ("Maximum residual"), its body is in [myNavierStokes.C]; the
    combined residual is the maximum across the equations of the set. *)
Definition residual (this : t) : scalar :=
  max (_residualRho this) (max (_residualM this) (_residualEt this)).

End myNavierStokes.

(** ** [mySpalartAllmaras] ([mySpalartAllmaras.H])

    The gradient, the wall distance and the model constants take no part in
    the selection protocol and are left out of the record. *)

Module mySpalartAllmaras.

(** [# define SA_SMALL 1e-10] *)
Definition SA_SMALL : scalar := 1e-10%float.

Record t := {
  _tag : word;
  _size : label;
  _nuTilda : scalarField;
  _nuTilda_o : scalarField;
  _residualNuTilda : scalar;
  _maxResidualNuTilda : scalar;
  _rhsNuTilda : scalarField;
  _lhsNuTilda : scalarField;
  _dtsNuTilda : scalarField;
  _bodyNuTilda : scalarField
}.

(** The arrays an accessor can hand out by reference. *)
Inductive member :=
| nuTilda_internalField
| nuTilda_o_internalField
| bodyNuTilda
| rhsNuTilda.

Definition get (this : t) (m : member) : scalarField :=
  match m with
  | nuTilda_internalField => _nuTilda this
  | nuTilda_o_internalField => _nuTilda_o this
  | bodyNuTilda => _bodyNuTilda this
  | rhsNuTilda => _rhsNuTilda this
  end.

(** The constructor: the initialiser list in declaration order, then the
    body (tag read from the dictionary, bounds check on [nuTilda]). *)
Definition ctor (inputNavierStokes : myNavierStokes.t) : t :=
  let time := myNavierStokes.time inputNavierStokes in
  let mesh := myNavierStokes.mesh inputNavierStokes in
  let n := myMesh.V_size mesh in
  let tag0 := "SpalartAllmaras" in
  let nuTilda := Time.read time "nuTilda" in
  let nuTilda_o := default nuTilda (Time.readIfPresent time "nuTilda_o") in
  let tag1 :=
    if found (Time.controlDict time) "turbulence"
    then lookup (Time.controlDict time) "turbulence" else tag0 in
  {| _tag := tag1;
     _size := 1%Z;
     _nuTilda := max_field nuTilda SA_SMALL;
     _nuTilda_o := nuTilda_o;
     _residualNuTilda := (-1)%float;
     _maxResidualNuTilda := 1.0e-16%float;
     _rhsNuTilda := uniform n 0%float;
     _lhsNuTilda := uniform n 0%float;
     _dtsNuTilda := uniform n 0%float;
     _bodyNuTilda := uniform n 0%float |}.

Definition tag (this : t) : word := _tag this.

(** [inline scalar residual() { return _residualNuTilda; }] *)
Definition residual (this : t) : scalar := _residualNuTilda this.

Definition size (this : t) : label := _size this.

Definition conservative (this : t) (ic : label) : member :=
  nuTilda_internalField.

Definition conservative_o (this : t) (ic : label) : member :=
  nuTilda_o_internalField.

Definition body (this : t) (ic : label) : member := bodyNuTilda.

Definition rhs (this : t) (ic : label) : member := rhsNuTilda.

End mySpalartAllmaras.

(** ** [myKappaOmega] ([myKappaOmega.H]) *)

Module myKappaOmega.

(** [# define KW_SMALL 1e-10] *)
Definition KW_SMALL : scalar := 1e-10%float.

Record t := {
  _tag : word;
  _size : label;
  _kappa : scalarField;
  _kappa_o : scalarField;
  _omega : scalarField;
  _omega_o : scalarField;
  _residualKappa : scalar;
  _residualOmega : scalar;
  _maxResidualKappa : scalar;
  _maxResidualOmega : scalar;
  _rhsKappa : scalarField;
  _rhsOmega : scalarField;
  _lhsKappa : scalarField;
  _lhsOmega : scalarField;
  _dtsKappa : scalarField;
  _dtsOmega : scalarField;
  _bodyKappa : scalarField;
  _bodyOmega : scalarField
}.

Inductive member :=
| kappa_internalField
| omega_internalField
| kappa_o_internalField
| omega_o_internalField
| bodyKappa
| bodyOmega
| rhsKappa
| rhsOmega.

Definition get (this : t) (m : member) : scalarField :=
  match m with
  | kappa_internalField => _kappa this
  | omega_internalField => _omega this
  | kappa_o_internalField => _kappa_o this
  | omega_o_internalField => _omega_o this
  | bodyKappa => _bodyKappa this
  | bodyOmega => _bodyOmega this
  | rhsKappa => _rhsKappa this
  | rhsOmega => _rhsOmega this
  end.

Definition ctor (inputNavierStokes : myNavierStokes.t) : t :=
  let time := myNavierStokes.time inputNavierStokes in
  let mesh := myNavierStokes.mesh inputNavierStokes in
  let n := myMesh.V_size mesh in
  let tag0 := "KappaOmega" in
  let kappa := Time.read time "kappa" in
  let kappa_o := default kappa (Time.readIfPresent time "kappa_o") in
  let omega := Time.read time "omega" in
  let omega_o := default omega (Time.readIfPresent time "omega_o") in
  let tag1 :=
    if found (Time.controlDict time) "turbulence"
    then lookup (Time.controlDict time) "turbulence" else tag0 in
  {| _tag := tag1;
     _size := 2%Z;
     _kappa := max_field kappa KW_SMALL;
     _kappa_o := kappa_o;
     _omega := max_field omega KW_SMALL;
     _omega_o := omega_o;
     _residualKappa := (-1)%float;
     _residualOmega := (-1)%float;
     _maxResidualKappa := 1.0e-16%float;
     _maxResidualOmega := 1.0e-16%float;
     _rhsKappa := uniform n 0%float;
     _rhsOmega := uniform n 0%float;
     _lhsKappa := uniform n 0%float;
     _lhsOmega := uniform n 0%float;
     _dtsKappa := uniform n 0%float;
     _dtsOmega := uniform n 0%float;
     _bodyKappa := uniform n 0%float;
     _bodyOmega := uniform n 0%float |}.

Definition tag (this : t) : word := _tag this.

(** [inline scalar residual() { return max( _residualKappa, _residualOmega ); }] *)
Definition residual (this : t) : scalar :=
  max (_residualKappa this) (_residualOmega this).

Definition size (this : t) : label := _size this.

Definition conservative (this : t) (ic : label) : member :=
  if (ic =? 0)%Z then kappa_internalField else omega_internalField.

Definition conservative_o (this : t) (ic : label) : member :=
  if (ic =? 0)%Z then kappa_o_internalField else omega_o_internalField.

Definition body (this : t) (ic : label) : member :=
  if (ic =? 0)%Z then bodyKappa else bodyOmega.

Definition rhs (this : t) (ic : label) : member :=
  if (ic =? 0)%Z then rhsKappa else rhsOmega.

End myKappaOmega.

(** ** [MYTURBULENCE]: the abstract base of the closures ([myTurbulence.H])

    The two derived classes are the two constructors of [t]; a virtual call
    is a match on them. *)

Module MYTURBULENCE.

(** The pure virtual [void] methods, with their arguments.
    [wallDistance_correct] stands for [wallDistance().correct()]. *)
Inductive method :=
| advection
| diffusion
| source (unsteady : bool)
| body_ (unsteady : bool)
| resetRhs
| resetBody
| smoothRhs (iterations : label) (epsilon : scalar)
| solve (alpha : scalar) (iterations : label) (epsilon : scalar)
| store
| update
| wallFunctions
| resetResidual
| updateResidual (normalization : word)
| buildDTS (half : label)
| correctBoundaryConditions
| wallDistance_correct.

Inductive t :=
| SpalartAllmaras (o : mySpalartAllmaras.t)
| KappaOmega (o : myKappaOmega.t).

Inductive member :=
| ofSpalartAllmaras (m : mySpalartAllmaras.member)
| ofKappaOmega (m : myKappaOmega.member).

(** The bodies of the [void] methods of the two closures: each may change
    the closure it is called on and the flow operator it was built
    against, and nothing else. *)
Class Bodies := {
  SpalartAllmaras_body :
    method -> myNavierStokes.t * mySpalartAllmaras.t ->
    myNavierStokes.t * mySpalartAllmaras.t;
  KappaOmega_body :
    method -> myNavierStokes.t * myKappaOmega.t ->
    myNavierStokes.t * myKappaOmega.t
}.

(** A virtual call [o->m( ... )]. *)
Definition call `{Bodies} (m : method) (ns : myNavierStokes.t) (o : t)
  : myNavierStokes.t * t :=
  match o with
  | SpalartAllmaras sa =>
      let r := SpalartAllmaras_body m (ns, sa) in (r.1, SpalartAllmaras r.2)
  | KappaOmega kw =>
      let r := KappaOmega_body m (ns, kw) in (r.1, KappaOmega r.2)
  end.

Definition tag (o : t) : word :=
  match o with
  | SpalartAllmaras sa => mySpalartAllmaras.tag sa
  | KappaOmega kw => myKappaOmega.tag kw
  end.

Definition residual (o : t) : scalar :=
  match o with
  | SpalartAllmaras sa => mySpalartAllmaras.residual sa
  | KappaOmega kw => myKappaOmega.residual kw
  end.

Definition size (o : t) : label :=
  match o with
  | SpalartAllmaras sa => mySpalartAllmaras.size sa
  | KappaOmega kw => myKappaOmega.size kw
  end.

Definition conservative (o : t) (ic : label) : member :=
  match o with
  | SpalartAllmaras sa => ofSpalartAllmaras (mySpalartAllmaras.conservative sa ic)
  | KappaOmega kw => ofKappaOmega (myKappaOmega.conservative kw ic)
  end.

Definition conservative_o (o : t) (ic : label) : member :=
  match o with
  | SpalartAllmaras sa => ofSpalartAllmaras (mySpalartAllmaras.conservative_o sa ic)
  | KappaOmega kw => ofKappaOmega (myKappaOmega.conservative_o kw ic)
  end.

Definition body (o : t) (ic : label) : member :=
  match o with
  | SpalartAllmaras sa => ofSpalartAllmaras (mySpalartAllmaras.body sa ic)
  | KappaOmega kw => ofKappaOmega (myKappaOmega.body kw ic)
  end.

Definition rhs (o : t) (ic : label) : member :=
  match o with
  | SpalartAllmaras sa => ofSpalartAllmaras (mySpalartAllmaras.rhs sa ic)
  | KappaOmega kw => ofKappaOmega (myKappaOmega.rhs kw ic)
  end.

(** Reading a member of an object; a member of the other class is not
    there. *)
Definition get (o : t) (m : member) : option scalarField :=
  match o, m with
  | SpalartAllmaras sa, ofSpalartAllmaras m => Some (mySpalartAllmaras.get sa m)
  | KappaOmega kw, ofKappaOmega m => Some (myKappaOmega.get kw m)
  | _, _ => None
  end.

End MYTURBULENCE.

(** ** [myTurbulence]: the selector ([myTurbulence.H]) *)

Module myTurbulence.

(** [# define MG_TURON 1] *)
Definition MG_TURON : Z := 1.

(** The selector itself.  [_turbulence] is the address of the closure in
    the heap, [None] for [NULL]. *)
Record t := {
  _tag : word;
  _size : label;
  _dummy : scalarField;
  _turbulence : option positive
}.

(** What a method of the selector can reach: the selector, the flow
    operator the closure was built against, and the heap of closures. *)
Record state := {
  self : t;
  flow : myNavierStokes.t;
  objects : gmap positive MYTURBULENCE.t
}.

(** [new T( ... )]: the object is placed at an address not in use. *)
Definition new (o : MYTURBULENCE.t) (h : gmap positive MYTURBULENCE.t)
  : positive * gmap positive MYTURBULENCE.t :=
  let p := fresh (dom h) in (p, <[p := o]> h).

(** The constructor, for a given value of the build flag [MG_TURON]: the
    block under [# if MG_TURON == 0] is the branch on [mg_turon].  In the two
    allocating branches [_dummy] is left as default-constructed, empty. *)
Definition ctor_with (mg_turon : Z)
    (inputNavierStokes : myNavierStokes.t)
    (h : gmap positive MYTURBULENCE.t) : state :=
  let dict := Time.controlDict (myNavierStokes.time inputNavierStokes) in
  let tag0 := "off" in
  let tag1 := if found dict "turbulence" then lookup dict "turbulence" else tag0 in
  let tag2 :=
    if (mg_turon =? 0)%Z
    then
      if negb (String.eqb (myMesh.tag (myNavierStokes.mesh inputNavierStokes)) "*")
      then "off" else tag1
    else tag1 in
  if String.eqb tag2 "SpalartAllmaras" || String.eqb tag2 "SA" then
    let a :=
      new (MYTURBULENCE.SpalartAllmaras (mySpalartAllmaras.ctor inputNavierStokes)) h in
    {| self := {| _tag := tag2; _size := 1%Z; _dummy := []; _turbulence := Some a.1 |};
       flow := inputNavierStokes; objects := a.2 |}
  else if String.eqb tag2 "KappaOmega" || String.eqb tag2 "KW" then
    let a :=
      new (MYTURBULENCE.KappaOmega (myKappaOmega.ctor inputNavierStokes)) h in
    {| self := {| _tag := tag2; _size := 2%Z; _dummy := []; _turbulence := Some a.1 |};
       flow := inputNavierStokes; objects := a.2 |}
  else
    {| self := {| _tag := "off"; _size := 0%Z; _dummy := uniform 1 0%float;
                  _turbulence := None |};
       flow := inputNavierStokes; objects := h |}.

(** The constructor as shipped. *)
Definition ctor := ctor_with MG_TURON.

(** The destructor: [if ( _tag != "off" ) delete _turbulence;] (deleting
    [NULL] does nothing).  It returns the heap that is left. *)
Definition dtor (s : state) : gmap positive MYTURBULENCE.t :=
  if negb (String.eqb (_tag (self s)) "off")
  then match _turbulence (self s) with
       | Some p => delete p (objects s)
       | None => objects s
       end
  else objects s.

(** [_turbulence->...]: [None] when the pointer is [NULL] or dangling. *)
Definition deref (s : state) : option (positive * MYTURBULENCE.t) :=
  p ← _turbulence (self s);
  o ← objects s !! p;
  Some (p, o).

(** [if ( _tag != "off" ) _turbulence->m( ... );] *)
Definition forward `{MYTURBULENCE.Bodies} (m : MYTURBULENCE.method)
    (s : state) : option state :=
  if negb (String.eqb (_tag (self s)) "off")
  then
    '(p, o) ← deref s;
    let r := MYTURBULENCE.call m (flow s) o in
    Some {| self := self s; flow := r.1; objects := <[p := r.2]> (objects s) |}
  else Some s.

Section Methods.
Context `{MYTURBULENCE.Bodies}.

Definition tag (s : state) : word := _tag (self s).
Definition updateWallDistance := forward MYTURBULENCE.wallDistance_correct.
Definition advection := forward MYTURBULENCE.advection.
Definition diffusion := forward MYTURBULENCE.diffusion.
Definition source (unsteady : bool) := forward (MYTURBULENCE.source unsteady).
Definition body_ (unsteady : bool) := forward (MYTURBULENCE.body_ unsteady).
Definition resetRhs := forward MYTURBULENCE.resetRhs.
Definition resetBody := forward MYTURBULENCE.resetBody.
Definition smoothRhs (iterations : label) (epsilon : scalar) :=
  forward (MYTURBULENCE.smoothRhs iterations epsilon).
Definition solve (alpha : scalar) (iterations : label) (epsilon : scalar) :=
  forward (MYTURBULENCE.solve alpha iterations epsilon).
Definition store := forward MYTURBULENCE.store.
Definition update := forward MYTURBULENCE.update.
Definition wallFunctions := forward MYTURBULENCE.wallFunctions.
Definition resetResidual := forward MYTURBULENCE.resetResidual.
Definition updateResidual (normalization : word) :=
  forward (MYTURBULENCE.updateResidual normalization).
Definition buildDTS (half : label) := forward (MYTURBULENCE.buildDTS half).
Definition correctBoundaryConditions :=
  forward MYTURBULENCE.correctBoundaryConditions.

(** A call of a [void] method of the selector, named by the method of
    the closure it forwards to. *)
Definition invoke (m : MYTURBULENCE.method) : state → option state :=
  match m with
  | MYTURBULENCE.advection => advection
  | MYTURBULENCE.diffusion => diffusion
  | MYTURBULENCE.source unsteady => source unsteady
  | MYTURBULENCE.body_ unsteady => body_ unsteady
  | MYTURBULENCE.resetRhs => resetRhs
  | MYTURBULENCE.resetBody => resetBody
  | MYTURBULENCE.smoothRhs iterations epsilon => smoothRhs iterations epsilon
  | MYTURBULENCE.solve alpha iterations epsilon => solve alpha iterations epsilon
  | MYTURBULENCE.store => store
  | MYTURBULENCE.update => update
  | MYTURBULENCE.wallFunctions => wallFunctions
  | MYTURBULENCE.resetResidual => resetResidual
  | MYTURBULENCE.updateResidual normalization => updateResidual normalization
  | MYTURBULENCE.buildDTS half => buildDTS half
  | MYTURBULENCE.correctBoundaryConditions => correctBoundaryConditions
  | MYTURBULENCE.wallDistance_correct => updateWallDistance
  end.

(** A sequence of calls, one after the other; [None] as soon as one of
    them dereferences a pointer that is not there. *)
Fixpoint run (ms : list MYTURBULENCE.method) (s : state) : option state :=
  match ms with
  | [] => Some s
  | m :: ms' => s' ← invoke m s; run ms' s'
  end.
End Methods.

(** [if ( _tag != "off" ) return _turbulence->residual(); else return -1.0;] *)
Definition residual (s : state) : option scalar :=
  if negb (String.eqb (_tag (self s)) "off")
  then '(_, o) ← deref s; Some (MYTURBULENCE.residual o)
  else Some (-1)%float.

Definition size (s : state) : label := _size (self s).

(** What a [scalarField&] handed out by the selector refers to: its own
    [_dummy], or a member of the object at an address. *)
Inductive fieldRef :=
| dummy
| object (p : positive) (m : MYTURBULENCE.member).

Definition accessor (f : MYTURBULENCE.t -> label -> MYTURBULENCE.member)
    (s : state) (ic : label) : option fieldRef :=
  if negb (String.eqb (_tag (self s)) "off")
  then '(p, o) ← deref s; Some (object p (f o ic))
  else Some dummy.

Definition conservative := accessor MYTURBULENCE.conservative.
Definition conservative_o := accessor MYTURBULENCE.conservative_o.
Definition body := accessor MYTURBULENCE.body.
Definition rhs := accessor MYTURBULENCE.rhs.

(** The contents behind a reference. *)
Definition read (s : state) (r : fieldRef) : option scalarField :=
  match r with
  | dummy => Some (_dummy (self s))
  | object p m => o ← objects s !! p; MYTURBULENCE.get o m
  end.

End myTurbulence.

(** ** [MYSOLVER] and [mySolver] ([mySolver.H])

    Two solver templates are included by the header, [myTimeStepping] and
    [myImplicit]; an object is recorded by the constructor call that made
    it. *)

Module MYSOLVER.

Inductive t :=
| myTimeStepping (inputTime : Time.t) (inputMesh : myMesh.t)
| myImplicit (inputTime : Time.t) (inputMesh : myMesh.t).

Inductive class := TimeStepping | Implicit.

Definition classOf (o : t) : class :=
  match o with
  | myTimeStepping _ _ => TimeStepping
  | myImplicit _ _ => Implicit
  end.

End MYSOLVER.

Module mySolver.

Record t := {
  _tag : word;
  _solver : MYSOLVER.t
}.

(** The constructor.  It returns the object and the shell commands passed
    to [system]; [nProcs] is [Pstream::nProcs()].  The dispatch on [_tag]
    is commented out in the source: only the last allocation is live. *)
Definition ctor (nProcs : Z) (inputTime : Time.t) (inputMesh : myMesh.t)
  : t * list string :=
  let dict := Time.controlDict inputTime in
  let tag0 := "default" in
  let tag1 := if found dict "solver" then lookup dict "solver" else tag0 in
  let clear0 := "off" in
  let clear1 := if found dict "clear" then lookup dict "clear" else clear0 in
  let parallel := if (1 <? nProcs)%Z then "/.." else "" in
  let filename := Time.path inputTime +:+ parallel +:+ "/Log/*" in
  let commands :=
    if String.eqb clear1 "all"
    then ["rm " +:+ filename +:+ " > /dev/null 2>&1"] else [] in
  ({| _tag := tag1; _solver := MYSOLVER.myTimeStepping inputTime inputMesh |},
   commands).

(** The solvers deleted by the destructor: [delete _solver;]. *)
Definition dtor (this : t) : list MYSOLVER.t := [_solver this].

End mySolver.

(** ** Vocabulary of the statements *)

(** The value of the [turbulence] entry of the control dictionary, if any. *)
Definition configuredTag (ns : myNavierStokes.t) : option word :=
  Time.controlDict (myNavierStokes.time ns) !! "turbulence".

(** The alias table of the selector. *)
Definition recognised (w : word) : Prop :=
  w ∈ ["SpalartAllmaras"; "SA"; "KappaOmega"; "KW"].

(** No recognised tag: the entry is absent, or its value is not an alias. *)
Definition unrecognised (ns : myNavierStokes.t) : Prop :=
  ∀ w, configuredTag ns = Some w → ¬ recognised w.

(** The selector is off: tag ["off"], no equation, no closure, and a dummy
    array of one cell holding [0.0]. *)
Definition Off (s : myTurbulence.state) : Prop :=
  myTurbulence.tag s = "off" ∧
  myTurbulence.size s = 0%Z ∧
  myTurbulence._turbulence (myTurbulence.self s) = None ∧
  myTurbulence._dummy (myTurbulence.self s) = [0%float].

(** The class of the closure the selector points to, as an equation count:
    none, the one-equation closure, the two-equation closure. *)
Definition equationsOwned (s : myTurbulence.state) : label :=
  match myTurbulence.deref s with
  | None => 0
  | Some (_, MYTURBULENCE.SpalartAllmaras _) => 1
  | Some (_, MYTURBULENCE.KappaOmega _) => 2
  end%Z.

(** The four opaque field accessors of the selector. *)
Definition accessors
  : list (myTurbulence.state → label → option myTurbulence.fieldRef) :=
  [myTurbulence.conservative; myTurbulence.conservative_o;
   myTurbulence.body; myTurbulence.rhs].

(** The allocation of a solver depends on the tag: two dictionaries make the
    constructor allocate solvers of different classes. *)
Definition solverDependsOnTag : Prop :=
  ∃ nProcs T1 T2 M,
    MYSOLVER.classOf (mySolver._solver (mySolver.ctor nProcs T1 M).1) ≠
    MYSOLVER.classOf (mySolver._solver (mySolver.ctor nProcs T2 M).1).

(** The tag the constructor dispatches on. *)
Definition dispatchTag (mg_turon : Z) (ns : myNavierStokes.t) : word :=
  let tag1 := default "off" (configuredTag ns) in
  if (mg_turon =? 0)%Z
  then if decide (myMesh.tag (myNavierStokes.mesh ns) = "*") then tag1 else "off"
  else tag1.

(** [consistent h s]: [s] is a state the selector can be in when it was
    constructed over the heap [h].  Either it is off, holds no address, and
    the heap is [h]; or it is not off, holds the address of the one object
    that was added to [h], and its equation count is the one of the class
    of that object. *)

Definition classSize (o : MYTURBULENCE.t) : label :=
  match o with
  | MYTURBULENCE.SpalartAllmaras _ => 1
  | MYTURBULENCE.KappaOmega _ => 2
  end.

Inductive consistent (h : gmap positive MYTURBULENCE.t)
  : myTurbulence.state → Prop :=
| consistent_off s :
    Off s →
    myTurbulence.objects s = h →
    consistent h s
| consistent_on s p o :
    myTurbulence._tag (myTurbulence.self s) ≠ "off" →
    myTurbulence._turbulence (myTurbulence.self s) = Some p →
    h !! p = None →
    myTurbulence.objects s = <[p := o]> h →
    myTurbulence._size (myTurbulence.self s) = classSize o →
    consistent h s.

(** ** Concrete cases

    A small case directory, used to run the definitions: four control
    volumes, persisted fields with entries below the bounds, and method
    bodies that do change the closure and the flow operator. *)

Definition sampleTime (dict : gmap string word) : Time.t :=
  {| Time.controlDict := dict;
     Time.read := λ _, [0.5; 0; -3; 1e-20]%float;
     Time.readIfPresent := λ _, None;
     Time.path := "case" |}.

Definition sampleFlow (dict : gmap string word) (level : label)
  : myNavierStokes.t :=
  myNavierStokes.ctor (sampleTime dict) (myMesh.ctor 4 level).

Definition sampleBodies : MYTURBULENCE.Bodies :=
  {| MYTURBULENCE.SpalartAllmaras_body := λ m x,
       (myNavierStokes.set_tag "touched" x.1,
        {| mySpalartAllmaras._tag := mySpalartAllmaras._tag x.2;
           mySpalartAllmaras._size := mySpalartAllmaras._size x.2;
           mySpalartAllmaras._nuTilda := mySpalartAllmaras._nuTilda_o x.2;
           mySpalartAllmaras._nuTilda_o := mySpalartAllmaras._nuTilda x.2;
           mySpalartAllmaras._residualNuTilda := 0.25;
           mySpalartAllmaras._maxResidualNuTilda := 1;
           mySpalartAllmaras._rhsNuTilda := mySpalartAllmaras._rhsNuTilda x.2;
           mySpalartAllmaras._lhsNuTilda := mySpalartAllmaras._lhsNuTilda x.2;
           mySpalartAllmaras._dtsNuTilda := mySpalartAllmaras._dtsNuTilda x.2;
           mySpalartAllmaras._bodyNuTilda := mySpalartAllmaras._bodyNuTilda x.2 |});
     MYTURBULENCE.KappaOmega_body := λ m x, x |}.

(** A two-equation closure whose residuals have been updated. *)
Definition sampleKappaOmega : myKappaOmega.t :=
  {| myKappaOmega._tag := "KW";
     myKappaOmega._size := 2;
     myKappaOmega._kappa := [1]%float;
     myKappaOmega._kappa_o := [1]%float;
     myKappaOmega._omega := [2]%float;
     myKappaOmega._omega_o := [2]%float;
     myKappaOmega._residualKappa := 0.5;
     myKappaOmega._residualOmega := 0.25;
     myKappaOmega._maxResidualKappa := 1;
     myKappaOmega._maxResidualOmega := 1;
     myKappaOmega._rhsKappa := [0]%float;
     myKappaOmega._rhsOmega := [0]%float;
     myKappaOmega._lhsKappa := [0]%float;
     myKappaOmega._lhsOmega := [0]%float;
     myKappaOmega._dtsKappa := [0]%float;
     myKappaOmega._dtsOmega := [0]%float;
     myKappaOmega._bodyKappa := [0]%float;
     myKappaOmega._bodyOmega := [0]%float |}.

(** A case that asks for the implicit solver, and one that asks for none. *)
Definition implicitCase : Time.t := sampleTime {["solver" := "Implicit"]}.
Definition defaultCase : Time.t := sampleTime ∅.

(** Flow operators over cases with a misspelt tag, no tag, each of two
    aliases, and a valid tag on the first agglomerated mesh level. *)
Definition misconfiguredFlow : myNavierStokes.t :=
  sampleFlow {["turbulence" := "kEpsilon"]} 0.
Definition absentFlow : myNavierStokes.t := sampleFlow ∅ 0.
Definition saFlow : myNavierStokes.t := sampleFlow {["turbulence" := "SA"]} 0.
Definition kwFlow : myNavierStokes.t :=
  sampleFlow {["turbulence" := "KappaOmega"]} 0.
Definition coarseFlow : myNavierStokes.t :=
  sampleFlow {["turbulence" := "SpalartAllmaras"]} 1.

(** A pseudo-time iteration, as a sequence of calls. *)
Definition sampleIteration : list MYTURBULENCE.method :=
  [MYTURBULENCE.resetRhs; MYTURBULENCE.advection; MYTURBULENCE.diffusion;
   MYTURBULENCE.source false; MYTURBULENCE.solve 1 2 0.5;
   MYTURBULENCE.update; MYTURBULENCE.updateResidual "max";
   MYTURBULENCE.store].

(** ** Writing through the references the selector hands out

    [tag()] returns a [word&]: a caller can assign to the tag of a selector
    that has already been constructed. *)

(** [s.tag() = w;] *)
Definition assignTag (w : word) (s : myTurbulence.state) : myTurbulence.state :=
  {| myTurbulence.self :=
       {| myTurbulence._tag := w;
          myTurbulence._size := myTurbulence._size (myTurbulence.self s);
          myTurbulence._dummy := myTurbulence._dummy (myTurbulence.self s);
          myTurbulence._turbulence :=
            myTurbulence._turbulence (myTurbulence.self s) |};
     myTurbulence.flow := myTurbulence.flow s;
     myTurbulence.objects := myTurbulence.objects s |}.

(** The value of the [physics] and [clear] entries of the control
    dictionary, if any. *)
Definition configuredPhysics (T : Time.t) : option word :=
  Time.controlDict T !! "physics".

Definition configuredClear (T : Time.t) : option word :=
  Time.controlDict T !! "clear".

(** The shell commands run during the construction of a [mySolver], in
    order: the constructor's own call to [system], then what the constructor
    of [myTimeStepping] runs in [new myTimeStepping( inputTime, inputMesh )].
    The class [myTimeStepping] is not among the sources: the commands of its
    constructor are the parameter [nested]. *)
Definition constructionCommands (nested : Time.t → myMesh.t → list string)
    (nProcs : Z) (inputTime : Time.t) (inputMesh : myMesh.t) : list string :=
  ((mySolver.ctor nProcs inputTime inputMesh).2 ++ nested inputTime inputMesh)%list.

(** A case whose persisted fields hold a cell that is not a number, next to
    one above the bounds and one below. *)
Definition restoredFlow : myNavierStokes.t :=
  myNavierStokes.ctor
    {| Time.controlDict := {["turbulence" := "KW"]};
       Time.read := λ _, [nan; 2; 1e-12]%float;
       Time.readIfPresent := λ _, None;
       Time.path := "case" |}
    (myMesh.ctor 3 0).

(** A two-equation closure whose kappa residual is not a number. *)
Definition divergedKappaOmega : myKappaOmega.t :=
  {| myKappaOmega._tag := "KW";
     myKappaOmega._size := 2;
     myKappaOmega._kappa := [1]%float;
     myKappaOmega._kappa_o := [1]%float;
     myKappaOmega._omega := [2]%float;
     myKappaOmega._omega_o := [2]%float;
     myKappaOmega._residualKappa := nan;
     myKappaOmega._residualOmega := 0.25;
     myKappaOmega._maxResidualKappa := 1;
     myKappaOmega._maxResidualOmega := 1;
     myKappaOmega._rhsKappa := [0]%float;
     myKappaOmega._rhsOmega := [0]%float;
     myKappaOmega._lhsKappa := [0]%float;
     myKappaOmega._lhsOmega := [0]%float;
     myKappaOmega._dtsKappa := [0]%float;
     myKappaOmega._dtsOmega := [0]%float;
     myKappaOmega._bodyKappa := [0]%float;
     myKappaOmega._bodyOmega := [0]%float |}.

(** ** [myMesh]: the moving-mesh options set by the constructor ([myMesh.H])

    The two tags the constructor derives from the [moving] entry of the
    control dictionary. *)

Module myMeshMoving.

Record t := {
  _tagMoving : word;
  _isMoving : word
}.

Definition ctor (inputTime : Time.t) : t :=
  let dict := Time.controlDict inputTime in
  let tagMoving0 := "off" in
  let isMoving0 := "off" in
  let tagMoving1 :=
    if found dict "moving" then lookup dict "moving" else tagMoving0 in
  let tagMoving2 :=
    if String.eqb tagMoving1 "ALE"
       || String.eqb tagMoving1 "ArbitraryLagrangianEulerian"
    then "ALE" else tagMoving1 in
  let tagMoving3 :=
    if String.eqb tagMoving2 "T" || String.eqb tagMoving2 "Transpiration"
    then "T" else tagMoving2 in
  let isMoving1 :=
    if String.eqb tagMoving3 "ALE" || String.eqb tagMoving3 "T"
    then "on" else isMoving0 in
  {| _tagMoving := tagMoving3; _isMoving := isMoving1 |}.

Definition isMoving (this : t) : word := _isMoving this.
Definition tagMoving (this : t) : word := _tagMoving this.

End myMeshMoving.

(** The value of the [moving] entry of the control dictionary, if any. *)
Definition configuredMoving (T : Time.t) : option word :=
  Time.controlDict T !! "moving".

(** ** [MYINTERFACE] and [myInterface]: the aeroelastic interface selector

    The header includes two interfaces, [myRigid] and [myModal]; their own
    headers are not part of the sources, so the state of an interface object
    and the state of the fluid solver it is built on are of types left open
    ([State], [Fluid]), and its constructors and method bodies are the fields
    of [Bodies]. *)

Module MYINTERFACE.

Inductive class := myRigid | myModal.

(** The pure virtual [void] methods. *)
Inductive method := iterate | statistics.

(** The pure virtual accessors of the input and output quantities. *)
Inductive quantity :=
| Fa | Ma | Qa | s | psi | sdot | psidot | q | qdot | solver | reference.

Record t (State : Type) := {
  classOf : class;
  stateOf : State
}.
Arguments classOf {State} _.
Arguments stateOf {State} _.

Class Bodies (Fluid State : Type) := {
  (** [fluid.time().controlDict()] *)
  controlDictOf : Fluid → gmap string word;
  (** [myRigid( fluid )], [myModal( fluid )] *)
  construct : class → Fluid → State;
  (** [iterate()], [statistics()] *)
  body : class → method → Fluid * State → Fluid * State;
  (** [fluid()]: the address of the fluid solver kept by the object *)
  fluidOf : class → State → option positive
}.

(** A virtual call [o->m()]. *)
Definition call {Fluid State : Type} `{!Bodies Fluid State}
    (m : method) (f : Fluid) (o : t State) : Fluid * t State :=
  let r := body (classOf o) m (f, stateOf o) in
  (r.1, {| classOf := classOf o; stateOf := r.2 |}).

End MYINTERFACE.

Module myInterface.

Record t := {
  _tag : word;
  _interface : option positive
}.

Record state (Fluid State : Type) := {
  self : t;
  fluidSolver : Fluid;
  objects : gmap positive (MYINTERFACE.t State)
}.
Arguments self {Fluid State} _.
Arguments fluidSolver {Fluid State} _.
Arguments objects {Fluid State} _.

Section Methods.
Context {Fluid State : Type} `{!MYINTERFACE.Bodies Fluid State}.

(** [new myRigid( fluid )], [new myModal( fluid )]. *)
Definition new (c : MYINTERFACE.class) (fluid : Fluid)
    (h : gmap positive (MYINTERFACE.t State))
  : positive * gmap positive (MYINTERFACE.t State) :=
  let p := fresh (dom h) in
  (p, <[p := {| MYINTERFACE.classOf := c;
                MYINTERFACE.stateOf := MYINTERFACE.construct c fluid |}]> h).

Definition ctor (fluid : Fluid) (h : gmap positive (MYINTERFACE.t State))
  : state Fluid State :=
  let dict := MYINTERFACE.controlDictOf fluid in
  let tag0 := "off" in
  let tag1 := if found dict "interface" then lookup dict "interface" else tag0 in
  if String.eqb tag1 "Rigid" || String.eqb tag1 "R" then
    let a := new MYINTERFACE.myRigid fluid h in
    {| self := {| _tag := tag1; _interface := Some a.1 |};
       fluidSolver := fluid; objects := a.2 |}
  else if String.eqb tag1 "Modal" || String.eqb tag1 "M" then
    let a := new MYINTERFACE.myModal fluid h in
    {| self := {| _tag := tag1; _interface := Some a.1 |};
       fluidSolver := fluid; objects := a.2 |}
  else
    {| self := {| _tag := "off"; _interface := None |};
       fluidSolver := fluid; objects := h |}.

(** [if( _tag != "off" ) { delete _interface; }] *)
Definition dtor (s : state Fluid State) : gmap positive (MYINTERFACE.t State) :=
  if negb (String.eqb (_tag (self s)) "off")
  then match _interface (self s) with
       | Some p => delete p (objects s)
       | None => objects s
       end
  else objects s.

(** [_interface->...]: [None] when the pointer is [NULL] or dangling. *)
Definition deref (s : state Fluid State)
  : option (positive * MYINTERFACE.t State) :=
  p ← _interface (self s);
  o ← objects s !! p;
  Some (p, o).

(** [fluid()]: the pointer kept by the interface, [NULL] when off. *)
Definition fluid (s : state Fluid State) : option (option positive) :=
  if negb (String.eqb (_tag (self s)) "off")
  then '(_, o) ← deref s;
       Some (MYINTERFACE.fluidOf (MYINTERFACE.classOf o) (MYINTERFACE.stateOf o))
  else Some None.

(** A virtual call on the object at [p], written back in place. *)
Definition callAt (m : MYINTERFACE.method) (p : positive)
    (s : state Fluid State) : option (state Fluid State) :=
  o ← objects s !! p;
  let r := MYINTERFACE.call m (fluidSolver s) o in
  Some {| self := self s; fluidSolver := r.1; objects := <[p := r.2]> (objects s) |}.

(** [if( _tag != "off" ) { _interface->iterate(); }] *)
Definition iterate (s : state Fluid State) : option (state Fluid State) :=
  if negb (String.eqb (_tag (self s)) "off")
  then p ← _interface (self s); callAt MYINTERFACE.iterate p s
  else Some s.

(** [if( _tag != "off" ) { _interface->statistics(); }] *)
Definition statistics (s : state Fluid State) : option (state Fluid State) :=
  if negb (String.eqb (_tag (self s)) "off")
  then p ← _interface (self s); callAt MYINTERFACE.statistics p s
  else Some s.

(** [operator++(int)]:
    [if( _tag != "off" ) { _interface->iterate(); _interface->statistics(); }] *)
Definition increment (s : state Fluid State) : option (state Fluid State) :=
  if negb (String.eqb (_tag (self s)) "off")
  then p ← _interface (self s);
       s1 ← callAt MYINTERFACE.iterate p s;
       callAt MYINTERFACE.statistics p s1
  else Some s.

(** The input-output accessors: [return _interface->Fa();] and the like,
    with no test of the tag.  The result names a quantity of the object at
    the address held. *)
Definition access (x : MYINTERFACE.quantity) (s : state Fluid State)
  : option (positive * MYINTERFACE.quantity) :=
  '(p, _) ← deref s; Some (p, x).

Definition Fa := access MYINTERFACE.Fa.
Definition Ma := access MYINTERFACE.Ma.
Definition Qa := access MYINTERFACE.Qa.
Definition s_ := access MYINTERFACE.s.
Definition psi := access MYINTERFACE.psi.
Definition sdot := access MYINTERFACE.sdot.
Definition psidot := access MYINTERFACE.psidot.
Definition q := access MYINTERFACE.q.
Definition qdot := access MYINTERFACE.qdot.
Definition solver := access MYINTERFACE.solver.
Definition reference := access MYINTERFACE.reference.

Definition tag (s : state Fluid State) : word := _tag (self s).

(** The three operations that advance the interface. *)
Inductive operation := Iterate | Statistics | Increment.

Definition invoke (op : operation) : state Fluid State → option (state Fluid State) :=
  match op with
  | Iterate => iterate
  | Statistics => statistics
  | Increment => increment
  end.

Fixpoint run (ops : list operation) (s : state Fluid State)
  : option (state Fluid State) :=
  match ops with
  | [] => Some s
  | op :: ops' => s' ← invoke op s; run ops' s'
  end.

End Methods.

End myInterface.

(** The value of the [interface] entry of the control dictionary of the
    fluid solver, if any. *)
Definition configuredInterface {Fluid State : Type}
    `{!MYINTERFACE.Bodies Fluid State} (fluid : Fluid) : option word :=
  MYINTERFACE.controlDictOf fluid !! "interface".

(** The eleven input-output accessors of the interface selector. *)
Definition interfaceAccessors {Fluid State : Type}
  : list (myInterface.state Fluid State →
          option (positive * MYINTERFACE.quantity)) :=
  [myInterface.Fa; myInterface.Ma; myInterface.Qa; myInterface.s_;
   myInterface.psi; myInterface.sdot; myInterface.psidot; myInterface.q;
   myInterface.qdot; myInterface.solver; myInterface.reference].

(** A fluid solver reduced to its control dictionary and a step counter, and
    interface objects reduced to a counter, to run the definitions. *)
Definition sampleInterfaceBodies
  : MYINTERFACE.Bodies (gmap string word * nat) nat :=
  {| MYINTERFACE.controlDictOf := λ f, f.1;
     MYINTERFACE.construct := λ c f, 0;
     MYINTERFACE.body := λ c m x, ((x.1.1, S x.1.2), S x.2);
     MYINTERFACE.fluidOf := λ c st, Some 1%positive |}.

(** The alias table of the interface selector. *)
Definition recognisedInterface (w : word) : Prop :=
  w ∈ ["Rigid"; "R"; "Modal"; "M"].

(** [interfaceConsistent h s]: a state the interface selector can be in when
    it was constructed over the heap [h]. *)
Inductive interfaceConsistent {Fluid State : Type}
    (h : gmap positive (MYINTERFACE.t State))
  : myInterface.state Fluid State → Prop :=
| interfaceConsistent_off s :
    myInterface._tag (myInterface.self s) = "off" →
    myInterface._interface (myInterface.self s) = None →
    myInterface.objects s = h →
    interfaceConsistent h s
| interfaceConsistent_on s p o :
    myInterface._tag (myInterface.self s) ≠ "off" →
    myInterface._interface (myInterface.self s) = Some p →
    h !! p = None →
    myInterface.objects s = <[p := o]> h →
    interfaceConsistent h s.

(** ** [myMesh]: the ALE block of the constructor ([myMesh.H])

    The parts of the block under [if ( _tagMoving == "ALE" )] that build the
    control points of the shape functions, the offsets of the reference
    points across processes, the list of reference points, and the rows of
    the inverse-distance-weighting matrix in sparse format.

    The counters and offsets of this block are labels that start at 0 and
    are only incremented or added; they are natural numbers here (a signed
    overflow is undefined in the source).  An array created with a size and
    no value is a list of [option]s, [None] for a cell not assigned yet. *)

Module myMeshALE.

(** Vectors: [v[id]], [v[id] = a], [u + v], [v*a]. *)
Definition component (v : vector) (id : nat) : scalar :=
  match id with 0 => v.1.1 | 1 => v.1.2 | _ => v.2 end.

Definition setComponent (v : vector) (id : nat) (a : scalar) : vector :=
  match id with
  | 0 => (a, v.1.2, v.2)
  | 1 => (v.1.1, a, v.2)
  | _ => (v.1.1, v.1.2, a)
  end.

Definition plus (u v : vector) : vector :=
  (u.1.1 + v.1.1, u.1.2 + v.1.2, u.2 + v.2)%float.

Definition times (v : vector) (a : scalar) : vector :=
  (v.1.1 * a, v.1.2 * a, v.2 * a)%float.

(** [directions[id]] of a [Vector<label>]. *)
Definition direction (d : label * label * label) (id : nat) : label :=
  match id with 0 => d.1.1 | 1 => d.1.2 | _ => d.2 end.

(** The body of the ["box"] branch: for each active direction the centres of
    the two opposite faces of the bounding box are appended. *)
Definition boxPoints (directions : label * label * label)
    (min max mid : vector) (points : vectorField) : vectorField :=
  foldl (λ points id,
           if (0 <? direction directions id)%Z then
             let versor := setComponent (0, 0, 0)%float id 1%float in
             let points :=
               (points ++ [plus mid (times versor
                                       (component min id - component mid id)%float)])%list in
             (points ++ [plus mid (times versor
                                     (component max id - component mid id)%float)])%list
           else points)
        points (seq 0 3).

(** The selection of the control points: [forAll( controls, k )]. *)
Definition controlPoints (controls : list word)
    (directions : label * label * label) (min max mid : vector) : vectorField :=
  foldl (λ points c,
           if String.eqb c "mid" then (points ++ [mid])%list
           else if String.eqb c "box" then boxPoints directions min max mid points
           else points)
        [] controls.

(** The lists [_pp] and [_oo]: created with [no*np] cells, then assigned by
    the two nested loops at [ip + io*np]. *)
Definition shapeFunctions (points : vectorField) (orders : scalarField)
  : list (option vector) * list (option scalar) :=
  let np := length points in
  let no := length orders in
  foldl (λ acc ipt,
           foldl (λ acc ioo,
                    (<[ipt.1 + ioo.1 * np := Some ipt.2]> acc.1,
                     <[ipt.1 + ioo.1 * np := Some ioo.2]> acc.2))
                 acc (zip (seq 0 no) orders))
        (replicate (no * np) None, replicate (no * np) None)
        (zip (seq 0 np) points).

(** The number of reference points of a process: the faces of the patches
    whose displacement is of type ["fixedValue"].  A patch is given by that
    type and by its face centres. *)
Definition countReference (patches : list (word * vectorField)) : nat :=
  foldl (λ Nr patch,
           if String.eqb patch.1 "fixedValue"
           then foldl (λ Nr _, Nr + 1) Nr patch.2
           else Nr)
        0 patches.

(** [_offset = labelList( nProcs + 1, 0 ); _offset[myProcNo + 1] = Nr;] *)
Definition localOffset (nProcs myProcNo Nr : nat) : list nat :=
  <[S myProcNo := Nr]> (replicate (S nProcs) 0).

(** [reduce( x, sumOp<label>() )]: every process gets the sum of the values
    the processes hold. *)
Definition reduce (held : list nat) : nat := foldr Nat.add 0 held.

(** The first loop on [_offset], on process [myProcNo]; [Nrs] lists the
    number of reference points of every process. *)
Definition reduced (Nrs : list nat) (myProcNo : nat) : list nat :=
  let nProcs := length Nrs in
  let offset := localOffset nProcs myProcNo (Nrs !!! myProcNo) in
  foldl (λ offset j,
           <[j := reduce (imap (λ p Nr, localOffset nProcs p Nr !!! j) Nrs)]> offset)
        offset (seq 1 (length offset - 1)).

(** The second loop: [_offset[j] = _offset[j] + _offset[j-1]]. *)
Definition accumulated (offset : list nat) : list nat :=
  foldl (λ offset j, <[j := offset !!! j + offset !!! (j - 1)]> offset)
        offset (seq 1 (length offset - 1)).

Definition offsets (Nrs : list nat) (myProcNo : nat) : list nat :=
  accumulated (reduced Nrs myProcNo).

(** The list of reference points of a process before the reduction: [Nr]
    zero vectors, then the face centres written from [k]; the final [k] is
    returned too.  The source writes [_rc[k]] unchecked; here a write past
    the end leaves the list as it is, and with the [Nr] and the [k] the
    constructor takes from the offsets no write is past the end. *)
Definition fillReference (patches : list (word * vectorField)) (Nr k : nat)
  : vectorField * nat :=
  foldl (λ acc patch,
           if String.eqb patch.1 "fixedValue"
           then foldl (λ acc c, (<[acc.2 := c]> acc.1, acc.2 + 1)) acc patch.2
           else acc)
        (replicate Nr (0, 0, 0)%float, k) patches.

(** [mag( x )] of a scalar. *)
Definition mag (x : scalar) : scalar := abs x.

(** One pass of [forAll( ROW, j ) if ( mag( ROW[j] ) > smallest ) Nc = Nc + 1;] *)
Definition countAbove (ROW : list scalar) (smallest : scalar) (Nc : nat) : nat :=
  foldl (λ Nc x, if (smallest <? mag x)%float then Nc + 1 else Nc) Nc ROW.

(** [while ( Nc == 0 ) { smallest = 0.5*smallest; ... }], with a bound on
    the number of times the condition is evaluated; [None] when the bound is
    reached with the loop still running. *)
Fixpoint halve (fuel : nat) (ROW : list scalar) (Nc : nat) (smallest : scalar)
  : option (nat * scalar) :=
  match fuel with
  | 0 => None
  | S fuel' =>
      if Nat.eqb Nc 0 then
        let smallest' := (0.5 * smallest)%float in
        halve fuel' ROW (countAbove ROW smallest' Nc) smallest'
      else Some (Nc, smallest)
  end.

(** The copy of the entries above the threshold into [_IDW[i]] and
    [_COL[i]], both created with [Nc] cells. *)
Definition compress (ROW : list scalar) (Nc : nat) (smallest : scalar)
  : list scalar * list nat * nat :=
  foldl (λ acc jx,
           if (smallest <? mag jx.2)%float
           then (<[acc.2 := jx.2]> acc.1.1, <[acc.2 := jx.1]> acc.1.2, acc.2 + 1)
           else acc)
        (replicate Nc 0%float, replicate Nc 0, 0)
        (zip (seq 0 (length ROW)) ROW).

(** [sum( f )] of a list of scalars. *)
Definition sum (f : list scalar) : scalar := foldl PrimFloat.add 0%float f.

(** [if ( _IDW[i].size() > 0 ) { ... _IDW[i] = _IDW[i]*normalize; }] *)
Definition normalise (IDWi : list scalar) : list scalar :=
  if Nat.ltb 0 (length IDWi)
  then let normalize := (1 / sum IDWi)%float in
       (λ x, (x * normalize)%float) <$> IDWi
  else IDWi.

(** A row of the matrix, from the full row assembled by [myIDW] (whose body
    is in [myMesh.C]): the weights kept and their columns. *)
Definition sparseRow (fuel : nat) (ROW : list scalar) (_smallest : scalar)
  : option (list scalar * list nat) :=
  r ← halve fuel ROW 0 (2 * _smallest)%float;
  let c := compress ROW r.1 r.2 in
  Some (normalise c.1.1, c.1.2).

(** [active] for a point: no cell around it belongs to a fixed region. *)
Definition isActive (cellToRegion fixed : list label) (tmp : list nat) : bool :=
  foldl (λ active c,
           foldl (λ active f,
                    if (cellToRegion !!! c =? f)%Z then false else active)
                 active fixed)
        true tmp.

(** The rows of the points next to a fixed region are set to zero, when the
    cell-to-region list has one entry per cell. *)
Definition fixRegions (cellToRegion fixed : list label) (nCells : nat)
    (pointCells : list (list nat)) (IDW : list (list scalar))
  : list (list scalar) :=
  if Nat.eqb (length cellToRegion) nCells
  then imap (λ i row,
               if isActive cellToRegion fixed (pointCells !!! i)
               then row else replicate (length row) 0%float)
            IDW
  else IDW.

End myMeshALE.

(** ** Vocabulary of the ALE block *)

(** A run of assignments [a[i] = v], in order. *)
Definition assign {A : Type} (l : list (nat * A)) (acc : list (option A))
  : list (option A) :=
  foldl (λ acc iv, <[iv.1 := Some iv.2]> acc) acc l.

(** The number of directions of the mesh that are active. *)
Definition activeDirections (d : label * label * label) : nat :=
  length (filter (λ id, (0 < myMeshALE.direction d id)%Z) (seq 0 3)).

(** The assignments of the two nested loops on the control points and on
    the orders, in the order they are made. *)
Definition shapeAssignments (points : vectorField) (orders : scalarField)
  : list ((nat * vector) * (nat * scalar)) :=
  ipt ← zip (seq 0 (length points)) points;
  (λ ioo, (ipt, ioo)) <$> zip (seq 0 (length orders)) orders.

(** What an assignment of the loops writes in [_pp] and in [_oo]. *)
Definition ppAssignment (points : vectorField)
    (a : (nat * vector) * (nat * scalar)) : nat * vector :=
  (a.1.1 + a.2.1 * length points, a.1.2).

Definition ooAssignment (points : vectorField)
    (a : (nat * vector) * (nat * scalar)) : nat * scalar :=
  (a.1.1 + a.2.1 * length points, a.2.2).

(** The entries of a full row above a threshold, with their columns. *)
Definition keptFrom (j0 : nat) (ROW : list scalar) (s : scalar)
  : list (nat * scalar) :=
  filter (λ jx, (s <? myMeshALE.mag jx.2)%float = true)
         (zip (seq j0 (length ROW)) ROW).

Definition kept (ROW : list scalar) (s : scalar) : list (nat * scalar) :=
  keptFrom 0 ROW s.

(** The face centres of the patches of type ["fixedValue"], in order. *)
Definition fixedCentres (patches : list (word * vectorField)) : vectorField :=
  patches ≫= λ patch, if String.eqb patch.1 "fixedValue" then patch.2 else [].

(** ** Scalars: order facts on binary64 *)

Section Scalars.

Lemma SFcompare_swap (x y : spec_float) :
  SFcompare y x = CompOpp <$> SFcompare x y.
Proof.
  destruct x as [sx|sx| |sx mx ex], y as [sy|sy| |sy my ey]; simpl;
    try reflexivity;
    try (destruct sx; reflexivity);
    try (destruct sy; reflexivity);
    try (destruct sx, sy; reflexivity).
  destruct sx, sy; simpl; try reflexivity;
    rewrite (Z.compare_antisym ey ex);
    destruct (ey ?= ex)%Z; simpl; try reflexivity;
    rewrite (Pos.compare_cont_antisym mx my Eq); reflexivity.
Qed.

Lemma not_nan_compare_refl (x : scalar) :
  is_nan x = false → SFcompare (Prim2SF x) (Prim2SF x) = Some Eq.
Proof.
  unfold is_nan, PrimFloat.is_nan. rewrite FloatAxioms.eqb_spec. unfold SFeqb.
  destruct (SFcompare (Prim2SF x) (Prim2SF x)) as [[]|]; simpl; congruence.
Qed.

Lemma not_nan_compare (x y : scalar) :
  is_nan x = false → is_nan y = false →
  ∃ c, SFcompare (Prim2SF x) (Prim2SF y) = Some c.
Proof.
  intros Hx%not_nan_compare_refl Hy%not_nan_compare_refl.
  destruct (Prim2SF x), (Prim2SF y); simpl in *; try discriminate; eauto.
Qed.

Lemma scalar_le_refl (x : scalar) : is_nan x = false → scalar_le x x.
Proof.
  intros Hx%not_nan_compare_refl. unfold scalar_le.
  rewrite FloatAxioms.leb_spec. unfold SFleb. now rewrite Hx.
Qed.

Lemma scalar_lt_le (x y : scalar) : scalar_lt x y → scalar_le x y.
Proof.
  unfold scalar_lt, scalar_le. rewrite FloatAxioms.ltb_spec, FloatAxioms.leb_spec. unfold SFltb, SFleb.
  destruct (SFcompare (Prim2SF x) (Prim2SF y)) as [[]|]; congruence.
Qed.

Lemma not_lt_le (x y : scalar) :
  is_nan x = false → is_nan y = false → (y <? x)%float = false → scalar_le x y.
Proof.
  intros Hx Hy. destruct (not_nan_compare x y Hx Hy) as [c Hc].
  unfold scalar_le. rewrite FloatAxioms.ltb_spec, FloatAxioms.leb_spec. unfold SFltb, SFleb.
  rewrite (SFcompare_swap (Prim2SF x) (Prim2SF y)), Hc.
  destruct c; simpl; congruence.
Qed.

(** [max] returns one of its arguments. *)
Lemma max_cases (a b : scalar) : max a b = a ∨ max a b = b.
Proof. unfold Foam.max. destruct (b <? a)%float; auto. Qed.

(** On numbers, [max] is an upper bound of its arguments. *)
Lemma max_upper (a b : scalar) :
  is_nan a = false → is_nan b = false →
  scalar_le a (max a b) ∧ scalar_le b (max a b).
Proof.
  intros Ha Hb. unfold Foam.max. destruct (b <? a)%float eqn:E.
  - split; [now apply scalar_le_refl | now apply scalar_lt_le].
  - split; [now apply not_lt_le | now apply scalar_le_refl].
Qed.

(** Whatever the first argument (a NaN included), [max x s] is at least
    [s] when [s] is a number. *)
Lemma max_lower (x s : scalar) : is_nan s = false → scalar_le s (max x s).
Proof.
  intros Hs. unfold Foam.max. destruct (s <? x)%float eqn:E.
  - now apply scalar_lt_le.
  - now apply scalar_le_refl.
Qed.

Lemma max_field_lower (f : scalarField) (s : scalar) :
  is_nan s = false → Forall (scalar_le s) (max_field f s).
Proof.
  intros Hs. unfold max_field. induction f as [|x f IH]; simpl.
  - constructor.
  - constructor; [now apply max_lower | exact IH].
Qed.

End Scalars.

(** ** The constructor of the selector, case by case *)

Section Construction.

Implicit Types (ns : myNavierStokes.t) (h : gmap positive MYTURBULENCE.t).

Lemma found_lookup (d : gmap string word) (k : string) (dflt : word) :
  (if found d k then lookup d k else dflt) = default dflt (d !! k).
Proof.
  unfold Foam.found, Foam.lookup, word in *. case_bool_decide as H.
  - destruct H as [w ->]. reflexivity.
  - destruct (d !! k) as [w|]; [exfalso; apply H; eauto | reflexivity].
Qed.

Lemma fresh_not_allocated h : h !! fresh (dom h) = None.
Proof. apply not_elem_of_dom, is_fresh. Qed.

(** The constructor, with its dispatch tag named. *)
Lemma ctor_with_dispatch mg_turon ns h :
  myTurbulence.ctor_with mg_turon ns h =
    let tag2 := dispatchTag mg_turon ns in
    if String.eqb tag2 "SpalartAllmaras" || String.eqb tag2 "SA" then
      {| myTurbulence.self :=
           {| myTurbulence._tag := tag2; myTurbulence._size := 1;
              myTurbulence._dummy := [];
              myTurbulence._turbulence := Some (fresh (dom h)) |};
         myTurbulence.flow := ns;
         myTurbulence.objects :=
           <[fresh (dom h) :=
               MYTURBULENCE.SpalartAllmaras (mySpalartAllmaras.ctor ns)]> h |}
    else if String.eqb tag2 "KappaOmega" || String.eqb tag2 "KW" then
      {| myTurbulence.self :=
           {| myTurbulence._tag := tag2; myTurbulence._size := 2;
              myTurbulence._dummy := [];
              myTurbulence._turbulence := Some (fresh (dom h)) |};
         myTurbulence.flow := ns;
         myTurbulence.objects :=
           <[fresh (dom h) :=
               MYTURBULENCE.KappaOmega (myKappaOmega.ctor ns)]> h |}
    else
      {| myTurbulence.self :=
           {| myTurbulence._tag := "off"; myTurbulence._size := 0;
              myTurbulence._dummy := [0%float];
              myTurbulence._turbulence := None |};
         myTurbulence.flow := ns;
         myTurbulence.objects := h |}.
Proof.
  unfold myTurbulence.ctor_with, dispatchTag, configuredTag, myTurbulence.new.
  cbv zeta. rewrite found_lookup.
  destruct (mg_turon =? 0)%Z; [|reflexivity].
  destruct (String.eqb_spec (myMesh.tag (myNavierStokes.mesh ns)) "*");
    destruct (decide _); simpl; done.
Qed.

Lemma ctor_SpalartAllmaras mg_turon ns h :
  dispatchTag mg_turon ns = "SpalartAllmaras" ∨ dispatchTag mg_turon ns = "SA" →
  myTurbulence.ctor_with mg_turon ns h =
    {| myTurbulence.self :=
         {| myTurbulence._tag := dispatchTag mg_turon ns;
            myTurbulence._size := 1;
            myTurbulence._dummy := [];
            myTurbulence._turbulence := Some (fresh (dom h)) |};
       myTurbulence.flow := ns;
       myTurbulence.objects :=
         <[fresh (dom h) :=
             MYTURBULENCE.SpalartAllmaras (mySpalartAllmaras.ctor ns)]> h |}.
Proof.
  intros Ht. rewrite ctor_with_dispatch. cbv zeta.
  destruct Ht as [-> | ->]; reflexivity.
Qed.

Lemma ctor_KappaOmega mg_turon ns h :
  dispatchTag mg_turon ns = "KappaOmega" ∨ dispatchTag mg_turon ns = "KW" →
  myTurbulence.ctor_with mg_turon ns h =
    {| myTurbulence.self :=
         {| myTurbulence._tag := dispatchTag mg_turon ns;
            myTurbulence._size := 2;
            myTurbulence._dummy := [];
            myTurbulence._turbulence := Some (fresh (dom h)) |};
       myTurbulence.flow := ns;
       myTurbulence.objects :=
         <[fresh (dom h) :=
             MYTURBULENCE.KappaOmega (myKappaOmega.ctor ns)]> h |}.
Proof.
  intros Ht. rewrite ctor_with_dispatch. cbv zeta.
  destruct Ht as [-> | ->]; reflexivity.
Qed.

Lemma ctor_off mg_turon ns h :
  ¬ recognised (dispatchTag mg_turon ns) →
  myTurbulence.ctor_with mg_turon ns h =
    {| myTurbulence.self :=
         {| myTurbulence._tag := "off";
            myTurbulence._size := 0;
            myTurbulence._dummy := [0%float];
            myTurbulence._turbulence := None |};
       myTurbulence.flow := ns;
       myTurbulence.objects := h |}.
Proof.
  intros Ht. rewrite ctor_with_dispatch. cbv zeta.
  unfold recognised in Ht.
  destruct (String.eqb_spec (dispatchTag mg_turon ns) "SpalartAllmaras") as [e|_];
    [exfalso; apply Ht; rewrite e; set_solver|].
  destruct (String.eqb_spec (dispatchTag mg_turon ns) "SA") as [e|_];
    [exfalso; apply Ht; rewrite e; set_solver|].
  destruct (String.eqb_spec (dispatchTag mg_turon ns) "KappaOmega") as [e|_];
    [exfalso; apply Ht; rewrite e; set_solver|].
  destruct (String.eqb_spec (dispatchTag mg_turon ns) "KW") as [e|_];
    [exfalso; apply Ht; rewrite e; set_solver|].
  reflexivity.
Qed.

Lemma recognised_cases (w : word) :
  recognised w →
  (w = "SpalartAllmaras" ∨ w = "SA") ∨ (w = "KappaOmega" ∨ w = "KW").
Proof.
  unfold recognised. intros H.
  repeat (apply elem_of_cons in H as [-> | H]; [tauto|]).
  by apply elem_of_nil in H.
Qed.

Lemma recognised_dec (w : word) : Decision (recognised w).
Proof. unfold recognised. apply _. Defined.

Lemma recognised_not_off (w : word) : recognised w → w ≠ "off".
Proof. intros [[-> | ->] | [-> | ->]]%recognised_cases; discriminate. Qed.

(** With the flag at its shipped value the dispatch is on the configured
    tag, ["off"] when the entry is absent. *)
Lemma dispatchTag_shipped ns :
  dispatchTag myTurbulence.MG_TURON ns = default "off" (configuredTag ns).
Proof. reflexivity. Qed.

Lemma unrecognised_dispatch ns :
  unrecognised ns → ¬ recognised (dispatchTag myTurbulence.MG_TURON ns).
Proof.
  unfold unrecognised. rewrite dispatchTag_shipped.
  destruct (configuredTag ns) as [w|]; simpl; intros H.
  - now apply H.
  - intros H'%recognised_not_off. now apply H'.
Qed.

(** An off selector can only have been constructed by the last branch. *)
Lemma ctor_off_inv mg_turon ns h :
  myTurbulence.tag (myTurbulence.ctor_with mg_turon ns h) = "off" →
  myTurbulence.ctor_with mg_turon ns h =
    {| myTurbulence.self :=
         {| myTurbulence._tag := "off";
            myTurbulence._size := 0;
            myTurbulence._dummy := [0%float];
            myTurbulence._turbulence := None |};
       myTurbulence.flow := ns;
       myTurbulence.objects := h |}.
Proof.
  intros Hoff.
  destruct (recognised_dec (dispatchTag mg_turon ns)) as [Hr|Hr];
    [|now apply ctor_off].
  exfalso. apply (recognised_not_off _ Hr).
  destruct (recognised_cases _ Hr) as [Hc|Hc].
  - now rewrite (ctor_SpalartAllmaras _ _ _ Hc) in Hoff.
  - now rewrite (ctor_KappaOmega _ _ _ Hc) in Hoff.
Qed.

End Construction.

(** ** The selector as a state machine *)

Section Protocol.

Context `{MYTURBULENCE.Bodies}.
Implicit Types (ns : myNavierStokes.t) (h : gmap positive MYTURBULENCE.t).
Implicit Types (s : myTurbulence.state) (m : MYTURBULENCE.method).

Lemma invoke_forward m s : myTurbulence.invoke m s = myTurbulence.forward m s.
Proof. destruct m; reflexivity. Qed.

Lemma call_classSize m ns o :
  classSize (MYTURBULENCE.call m ns o).2 = classSize o.
Proof. destruct o; reflexivity. Qed.

Lemma tag_off_test s :
  myTurbulence._tag (myTurbulence.self s) = "off" →
  negb (String.eqb (myTurbulence._tag (myTurbulence.self s)) "off") = false.
Proof. intros ->. reflexivity. Qed.

Lemma tag_on_test s :
  myTurbulence._tag (myTurbulence.self s) ≠ "off" →
  negb (String.eqb (myTurbulence._tag (myTurbulence.self s)) "off") = true.
Proof. intros Hne. now destruct (String.eqb_spec (myTurbulence._tag (myTurbulence.self s)) "off"). Qed.

Lemma deref_on h s p o :
  myTurbulence._turbulence (myTurbulence.self s) = Some p →
  myTurbulence.objects s = <[p := o]> h →
  myTurbulence.deref s = Some (p, o).
Proof.
  intros Hp Ho. unfold myTurbulence.deref. rewrite Hp, Ho. simpl.
  now rewrite lookup_insert_eq.
Qed.

(** Off: a forwarded call returns the state it was given. *)
Lemma forward_off m s :
  myTurbulence._tag (myTurbulence.self s) = "off" →
  myTurbulence.forward m s = Some s.
Proof. intros Hoff. unfold myTurbulence.forward. now rewrite tag_off_test. Qed.

Lemma run_off (ms : list MYTURBULENCE.method) s :
  myTurbulence._tag (myTurbulence.self s) = "off" →
  myTurbulence.run ms s = Some s.
Proof.
  intros Hoff. induction ms as [|m ms IH]; simpl; [reflexivity|].
  rewrite invoke_forward, forward_off by assumption. exact IH.
Qed.

(** The constructor establishes the invariant, for either value of the
    build flag. *)
Lemma ctor_consistent mg_turon ns h :
  consistent h (myTurbulence.ctor_with mg_turon ns h).
Proof.
  destruct (recognised_dec (dispatchTag mg_turon ns)) as [Hr|Hr].
  - pose proof (recognised_not_off _ Hr) as Hne.
    destruct (recognised_cases _ Hr) as [Hc|Hc].
    + rewrite (ctor_SpalartAllmaras _ _ _ Hc).
      eapply consistent_on; simpl; eauto using fresh_not_allocated.
    + rewrite (ctor_KappaOmega _ _ _ Hc).
      eapply consistent_on; simpl; eauto using fresh_not_allocated.
  - rewrite (ctor_off _ _ _ Hr). now apply consistent_off.
Qed.

(** A call keeps the invariant and leaves the selector as it was. *)
Lemma forward_consistent h m s :
  consistent h s →
  ∃ s', myTurbulence.forward m s = Some s' ∧
        myTurbulence.self s' = myTurbulence.self s ∧
        consistent h s'.
Proof.
  intros Hc. destruct Hc as [s Hoff Ho | s p o Hon Hp Hfresh Ho Hsz].
  - exists s. split; [apply forward_off, Hoff|]. split; [reflexivity|].
    now apply consistent_off.
  - unfold myTurbulence.forward.
    rewrite (tag_on_test _ Hon), (deref_on _ _ _ _ Hp Ho). simpl.
    eexists. split; [reflexivity|]. split; [reflexivity|].
    apply (consistent_on h _ p (MYTURBULENCE.call m (myTurbulence.flow s) o).2);
      simpl; try assumption.
    + rewrite Ho. apply insert_insert_eq.
    + now rewrite call_classSize.
Qed.

Lemma run_consistent h (ms : list MYTURBULENCE.method) s :
  consistent h s →
  ∃ s', myTurbulence.run ms s = Some s' ∧
        myTurbulence.self s' = myTurbulence.self s ∧
        consistent h s'.
Proof.
  revert s. induction ms as [|m ms IH]; intros s Hc; simpl.
  - eauto.
  - destruct (forward_consistent h m s Hc) as (s1 & Hf & Hself & Hc1).
    rewrite invoke_forward, Hf. simpl.
    destruct (IH s1 Hc1) as (s' & Hr & Hself' & Hc').
    exists s'. split; [exact Hr|]. split; [congruence | exact Hc'].
Qed.

(** The destructor gives back the heap the selector was constructed
    over. *)
Lemma dtor_consistent h s :
  consistent h s → myTurbulence.dtor s = h.
Proof.
  intros [s' Hoff Ho | s' p o Hon Hp Hfresh Ho Hsz]; unfold myTurbulence.dtor.
  - now rewrite tag_off_test by apply Hoff.
  - rewrite tag_on_test, Hp, Ho by assumption.
    rewrite delete_insert_eq. now apply delete_id.
Qed.

(** The equation count kept by the selector is the one of the class of
    the object it points to. *)
Lemma consistent_equationsOwned h s :
  consistent h s → equationsOwned s = myTurbulence.size s.
Proof.
  intros [s' Hoff Ho | s' p o Hon Hp Hfresh Ho Hsz]; unfold equationsOwned.
  - destruct Hoff as (_ & Hsz & Hp & _).
    unfold myTurbulence.deref. rewrite Hp. simpl. now rewrite Hsz.
  - rewrite (deref_on _ _ _ _ Hp Ho). unfold myTurbulence.size.
    rewrite Hsz. now destruct o.
Qed.

End Protocol.

(** ** The claims *)

(** C1.  With no recognised turbulence tag in the configuration the selector
    is constructed off.  In that state every forwarded operation, and every
    sequence of them, returns the state it was given: selector, flow operator
    and heap are unchanged.  [residual()] returns [-1.0], and the four field
    accessors return, for every index, a reference to the one dummy array,
    which holds the single value [0.0]. *)
Theorem off_state_is_inert `{MYTURBULENCE.Bodies}
    (ns : myNavierStokes.t) (h : gmap positive MYTURBULENCE.t) :
  unrecognised ns →
  let s := myTurbulence.ctor ns h in
  Off s ∧
  (∀ m, myTurbulence.invoke m s = Some s) ∧
  (∀ ms, myTurbulence.run ms s = Some s) ∧
  myTurbulence.residual s = Some (-1)%float ∧
  (∀ acc ic, acc ∈ accessors → acc s ic = Some myTurbulence.dummy) ∧
  myTurbulence.read s myTurbulence.dummy = Some [0%float].
Proof.
  intros Hu%unrecognised_dispatch s. subst s. unfold myTurbulence.ctor.
  rewrite (ctor_off _ _ _ Hu).
  split; [done|]. split.
  { intros m. rewrite invoke_forward. now apply forward_off. }
  split; [intros ms; now apply run_off|].
  split; [reflexivity|]. split; [|reflexivity].
  intros acc ic Hacc. unfold accessors in Hacc.
  repeat (apply elem_of_cons in Hacc as [-> | Hacc]; [reflexivity|]).
  by apply elem_of_nil in Hacc.
Qed.

(** C1 at a case whose tag is misspelt: an iteration changes nothing and the
    residual is the sentinel. *)
Lemma off_state_is_inert_witness :
  unrecognised misconfiguredFlow ∧
  myTurbulence.run (H := sampleBodies) sampleIteration
    (myTurbulence.ctor misconfiguredFlow ∅) =
    Some (myTurbulence.ctor misconfiguredFlow ∅) ∧
  myTurbulence.residual (myTurbulence.ctor misconfiguredFlow ∅) = Some (-1)%float.
Proof.
  assert (Hu : unrecognised misconfiguredFlow).
  { intros w Hw. vm_compute in Hw. injection Hw as <-.
    unfold recognised. intros Hin.
    repeat (apply elem_of_cons in Hin as [Heq | Hin]; [discriminate|]).
    by apply elem_of_nil in Hin. }
  split; [exact Hu|].
  destruct (off_state_is_inert (H := sampleBodies) misconfiguredFlow ∅ Hu)
    as (_ & _ & Hrun & Hres & _).
  split; [apply Hrun | exact Hres].
Defined.

(** C2.  The constructor is a total function of the configuration.  With
    the tag ["SpalartAllmaras"] or ["SA"] one [mySpalartAllmaras] object is
    allocated, at an address that was free, and [size()] is 1; with
    ["KappaOmega"] or ["KW"] one [myKappaOmega] object is allocated and
    [size()] is 2; with any other value, or no entry, nothing is allocated,
    the pointer is [NULL], [tag()] is ["off"] and [size()] is 0. *)
Theorem construction_selects_closure
    (ns : myNavierStokes.t) (h : gmap positive MYTURBULENCE.t) :
  let s := myTurbulence.ctor ns h in
  (configuredTag ns = Some "SpalartAllmaras" ∨ configuredTag ns = Some "SA" →
   ∃ p, myTurbulence._turbulence (myTurbulence.self s) = Some p ∧
        h !! p = None ∧
        myTurbulence.objects s =
          <[p := MYTURBULENCE.SpalartAllmaras (mySpalartAllmaras.ctor ns)]> h ∧
        myTurbulence.size s = 1%Z) ∧
  (configuredTag ns = Some "KappaOmega" ∨ configuredTag ns = Some "KW" →
   ∃ p, myTurbulence._turbulence (myTurbulence.self s) = Some p ∧
        h !! p = None ∧
        myTurbulence.objects s =
          <[p := MYTURBULENCE.KappaOmega (myKappaOmega.ctor ns)]> h ∧
        myTurbulence.size s = 2%Z) ∧
  (unrecognised ns →
   myTurbulence.tag s = "off" ∧ myTurbulence.size s = 0%Z ∧
   myTurbulence._turbulence (myTurbulence.self s) = None ∧
   myTurbulence.objects s = h).
Proof.
  intros s. subst s. unfold myTurbulence.ctor. split; [|split].
  - intros Hc. rewrite ctor_SpalartAllmaras.
    + exists (fresh (dom h)). simpl. eauto using fresh_not_allocated.
    + rewrite dispatchTag_shipped. destruct Hc as [-> | ->]; simpl; auto.
  - intros Hc. rewrite ctor_KappaOmega.
    + exists (fresh (dom h)). simpl. eauto using fresh_not_allocated.
    + rewrite dispatchTag_shipped. destruct Hc as [-> | ->]; simpl; auto.
  - intros Hu%unrecognised_dispatch. now rewrite (ctor_off _ _ _ Hu).
Qed.

(** C2 at the four sample cases. *)
Lemma construction_selects_closure_witness :
  myTurbulence.size (myTurbulence.ctor saFlow ∅) = 1%Z ∧
  myTurbulence.size (myTurbulence.ctor kwFlow ∅) = 2%Z ∧
  myTurbulence.tag (myTurbulence.ctor absentFlow ∅) = "off" ∧
  myTurbulence.size (myTurbulence.ctor absentFlow ∅) = 0%Z.
Proof.
  destruct (construction_selects_closure saFlow ∅) as (Hsa & _ & _).
  destruct (construction_selects_closure kwFlow ∅) as (_ & Hkw & _).
  destruct (construction_selects_closure absentFlow ∅) as (_ & _ & Hoff).
  destruct Hsa as (p1 & _ & _ & _ & Hs1); [right; vm_compute; reflexivity|].
  destruct Hkw as (p2 & _ & _ & _ & Hs2); [left; vm_compute; reflexivity|].
  destruct Hoff as (Ht & Hs0 & _).
  { intros w Hw. vm_compute in Hw. discriminate. }
  split; [exact Hs1|]. split; [exact Hs2|]. split; [exact Ht | exact Hs0].
Defined.

(** C3, as stated, does not hold: the class of the solver allocated by
    [mySolver] does not depend on the [solver] entry.  A case that asks for
    ["Implicit"] and a case without the entry both get a [myTimeStepping],
    although the tags read differ. *)
Lemma solver_allocation_ignores_tag :
  mySolver._tag (mySolver.ctor 1 implicitCase (myMesh.ctor 4 0)).1 = "Implicit" ∧
  mySolver._tag (mySolver.ctor 1 defaultCase (myMesh.ctor 4 0)).1 = "default" ∧
  MYSOLVER.classOf
    (mySolver._solver (mySolver.ctor 1 implicitCase (myMesh.ctor 4 0)).1)
    = MYSOLVER.TimeStepping ∧
  MYSOLVER.classOf
    (mySolver._solver (mySolver.ctor 1 defaultCase (myMesh.ctor 4 0)).1)
    = MYSOLVER.TimeStepping ∧
  ¬ solverDependsOnTag.
Proof.
  split; [reflexivity|]. split; [reflexivity|].
  split; [reflexivity|]. split; [reflexivity|].
  intros (nProcs & T1 & T2 & M & Hne). now apply Hne.
Qed.

(** C3, amended.  [mySolver] allocates exactly one solver at construction,
    always a [myTimeStepping] built on the time and mesh it was given,
    whatever the [solver] entry says; the entry is only read into the tag
    (["default"] when absent), and the destructor deletes that one solver. *)
Theorem solver_is_time_stepping (nProcs : Z) (T : Time.t) (M : myMesh.t) :
  mySolver._solver (mySolver.ctor nProcs T M).1 = MYSOLVER.myTimeStepping T M ∧
  mySolver._tag (mySolver.ctor nProcs T M).1 =
    default "default" (Time.controlDict T !! "solver") ∧
  mySolver.dtor (mySolver.ctor nProcs T M).1 = [MYSOLVER.myTimeStepping T M].
Proof.
  split; [reflexivity|]. split; [|reflexivity].
  unfold mySolver.ctor. cbv zeta. simpl. apply found_lookup.
Qed.

(** C4.  [myKappaOmega::residual()] is the maximum of the kappa and omega
    residuals: it is one of the two, and when both are numbers it is at
    least each of them.  [mySpalartAllmaras::residual()] is the residual of
    its one equation.  The same holds through a virtual call. *)
Theorem residual_is_maximum (kw : myKappaOmega.t) (sa : mySpalartAllmaras.t) :
  (myKappaOmega.residual kw = myKappaOmega._residualKappa kw ∨
   myKappaOmega.residual kw = myKappaOmega._residualOmega kw) ∧
  (is_nan (myKappaOmega._residualKappa kw) = false →
   is_nan (myKappaOmega._residualOmega kw) = false →
   scalar_le (myKappaOmega._residualKappa kw) (myKappaOmega.residual kw) ∧
   scalar_le (myKappaOmega._residualOmega kw) (myKappaOmega.residual kw)) ∧
  mySpalartAllmaras.residual sa = mySpalartAllmaras._residualNuTilda sa ∧
  MYTURBULENCE.residual (MYTURBULENCE.KappaOmega kw) = myKappaOmega.residual kw ∧
  MYTURBULENCE.residual (MYTURBULENCE.SpalartAllmaras sa) =
    mySpalartAllmaras._residualNuTilda sa.
Proof.
  split; [apply max_cases|].
  split; [intros Hk Ho; now apply max_upper|].
  repeat split.
Qed.

(** C4 at a closure with residuals [0.5] and [0.25]. *)
Lemma residual_is_maximum_witness :
  myKappaOmega.residual sampleKappaOmega = 0.5%float ∧
  scalar_le 0.25 (myKappaOmega.residual sampleKappaOmega) ∧
  scalar_le 0.5 (myKappaOmega.residual sampleKappaOmega).
Proof.
  destruct (residual_is_maximum sampleKappaOmega (mySpalartAllmaras.ctor absentFlow))
    as (_ & Hup & _).
  destruct (Hup eq_refl eq_refl) as [Hk Ho].
  split; [reflexivity|]. split; [exact Ho | exact Hk].
Defined.

(** C5.  Right after construction every residual of every equation set is
    [-1.0]: the three of the flow operator, the one of Spalart-Allmaras, the
    two of Kappa-Omega; so [residual()] is [-1.0], a negative value, for each
    set, and also through the selector, whatever closure it selected. *)
Theorem residuals_start_at_sentinel
    (T : Time.t) (M : myMesh.t)
    (ns : myNavierStokes.t) (h : gmap positive MYTURBULENCE.t) :
  (myNavierStokes.residualRho (myNavierStokes.ctor T M) = (-1)%float ∧
   myNavierStokes.residualM (myNavierStokes.ctor T M) = (-1)%float ∧
   myNavierStokes.residualEt (myNavierStokes.ctor T M) = (-1)%float ∧
   myNavierStokes.residual (myNavierStokes.ctor T M) = (-1)%float) ∧
  (mySpalartAllmaras._residualNuTilda (mySpalartAllmaras.ctor ns) = (-1)%float ∧
   mySpalartAllmaras.residual (mySpalartAllmaras.ctor ns) = (-1)%float) ∧
  (myKappaOmega._residualKappa (myKappaOmega.ctor ns) = (-1)%float ∧
   myKappaOmega._residualOmega (myKappaOmega.ctor ns) = (-1)%float ∧
   myKappaOmega.residual (myKappaOmega.ctor ns) = (-1)%float) ∧
  myTurbulence.residual (myTurbulence.ctor ns h) = Some (-1)%float ∧
  scalar_lt (-1) 0.
Proof.
  split.
  { unfold myNavierStokes.ctor. cbv zeta.
    destruct (found _ _); simpl;
      repeat match goal with |- context [String.eqb ?a ?b] =>
        destruct (String.eqb a b); simpl end;
      repeat split. }
  split; [split; reflexivity|]. split; [repeat split|].
  split; [|reflexivity].
  unfold myTurbulence.ctor.
  destruct (recognised_dec (dispatchTag myTurbulence.MG_TURON ns)) as [Hr|Hr].
  - pose proof (recognised_not_off _ Hr) as Hne.
    unfold myTurbulence.residual.
    destruct (recognised_cases _ Hr) as [Hc|Hc].
    + rewrite (ctor_SpalartAllmaras _ _ _ Hc). simpl.
      destruct (String.eqb_spec (dispatchTag myTurbulence.MG_TURON ns) "off");
        [done|]. simpl.
      unfold myTurbulence.deref. simpl. now rewrite lookup_insert_eq.
    + rewrite (ctor_KappaOmega _ _ _ Hc). simpl.
      destruct (String.eqb_spec (dispatchTag myTurbulence.MG_TURON ns) "off");
        [done|]. simpl.
      unfold myTurbulence.deref. simpl. now rewrite lookup_insert_eq.
  - now rewrite (ctor_off _ _ _ Hr).
Qed.

(** A closure hands out members of its own class only, so reading one of
    them on that closure succeeds. *)
Lemma get_accessor (o : MYTURBULENCE.t) (ic : label) :
  is_Some (MYTURBULENCE.get o (MYTURBULENCE.conservative o ic)) ∧
  is_Some (MYTURBULENCE.get o (MYTURBULENCE.conservative_o o ic)) ∧
  is_Some (MYTURBULENCE.get o (MYTURBULENCE.body o ic)) ∧
  is_Some (MYTURBULENCE.get o (MYTURBULENCE.rhs o ic)).
Proof. destruct o; simpl; eauto. Qed.

Lemma accessor_on (f : MYTURBULENCE.t → label → MYTURBULENCE.member)
    (h : gmap positive MYTURBULENCE.t) (s : myTurbulence.state)
    (p : positive) (o : MYTURBULENCE.t) (ic : label) :
  myTurbulence._tag (myTurbulence.self s) ≠ "off" →
  myTurbulence._turbulence (myTurbulence.self s) = Some p →
  myTurbulence.objects s = <[p := o]> h →
  myTurbulence.accessor f s ic = Some (myTurbulence.object p (f o ic)) ∧
  myTurbulence.read s (myTurbulence.object p (f o ic)) = MYTURBULENCE.get o (f o ic).
Proof.
  intros Hon Hp Ho. unfold myTurbulence.accessor, myTurbulence.read.
  rewrite (tag_on_test _ Hon), (deref_on _ _ _ _ Hp Ho), Ho. simpl.
  now rewrite lookup_insert_eq.
Qed.

(** C6.  The closures are constructed with 1 and 2 equations.  After any
    sequence of operations of the selector (none of which fails), [size()]
    is what it was after construction, and it is the count of the class of
    the closure the selector points to: 0 for none, 1 for Spalart-Allmaras,
    2 for Kappa-Omega.  When the selector is not off, each of the four field
    accessors returns, for every index, a reference into the closure the
    selector owns, which is there to be read, and never the dummy array. *)
Theorem size_is_invariant `{MYTURBULENCE.Bodies}
    (ns : myNavierStokes.t) (h : gmap positive MYTURBULENCE.t)
    (ms : list MYTURBULENCE.method) :
  mySpalartAllmaras.size (mySpalartAllmaras.ctor ns) = 1%Z ∧
  myKappaOmega.size (myKappaOmega.ctor ns) = 2%Z ∧
  ∃ s, myTurbulence.run ms (myTurbulence.ctor ns h) = Some s ∧
       myTurbulence.size s = myTurbulence.size (myTurbulence.ctor ns h) ∧
       myTurbulence.size s = equationsOwned s ∧
       (myTurbulence.tag s ≠ "off" →
        ∀ acc ic, acc ∈ accessors →
          ∃ p m f, acc s ic = Some (myTurbulence.object p m) ∧
                   myTurbulence._turbulence (myTurbulence.self s) = Some p ∧
                   myTurbulence.read s (myTurbulence.object p m) = Some f).
Proof.
  split; [reflexivity|]. split; [reflexivity|].
  destruct (run_consistent h ms _ (ctor_consistent myTurbulence.MG_TURON ns h))
    as (s & Hrun & Hself & Hc).
  exists s. split; [exact Hrun|].
  split; [unfold myTurbulence.size; now rewrite Hself|].
  split; [symmetry; now apply (consistent_equationsOwned h)|].
  intros Hon acc ic Hacc.
  destruct Hc as [s Hoff Ho | s p o _ Hp Hfresh Ho Hsz].
  { destruct Hoff as [Hoff _]. contradiction. }
  pose proof (get_accessor o ic) as (Hg1 & Hg2 & Hg3 & Hg4).
  unfold accessors in Hacc.
  apply elem_of_cons in Hacc as [-> | Hacc].
  { destruct Hg1 as [f Hf].
    destruct (accessor_on MYTURBULENCE.conservative h s p o ic Hon Hp Ho) as [Ha Hr].
    exists p, (MYTURBULENCE.conservative o ic), f. rewrite Hr. auto. }
  apply elem_of_cons in Hacc as [-> | Hacc].
  { destruct Hg2 as [f Hf].
    destruct (accessor_on MYTURBULENCE.conservative_o h s p o ic Hon Hp Ho) as [Ha Hr].
    exists p, (MYTURBULENCE.conservative_o o ic), f. rewrite Hr. auto. }
  apply elem_of_cons in Hacc as [-> | Hacc].
  { destruct Hg3 as [f Hf].
    destruct (accessor_on MYTURBULENCE.body h s p o ic Hon Hp Ho) as [Ha Hr].
    exists p, (MYTURBULENCE.body o ic), f. rewrite Hr. auto. }
  apply elem_of_cons in Hacc as [-> | Hacc].
  { destruct Hg4 as [f Hf].
    destruct (accessor_on MYTURBULENCE.rhs h s p o ic Hon Hp Ho) as [Ha Hr].
    exists p, (MYTURBULENCE.rhs o ic), f. rewrite Hr. auto. }
  by apply elem_of_nil in Hacc.
Qed.

(** C6 at the ["SA"] case, after an iteration whose bodies rewrite the
    closure and the flow operator. *)
Lemma size_is_invariant_witness :
  ∃ s, myTurbulence.run (H := sampleBodies) sampleIteration
         (myTurbulence.ctor saFlow ∅) = Some s ∧
       myTurbulence.tag s ≠ "off" ∧
       myTurbulence.size s = 1%Z ∧
       ∃ p m f, myTurbulence.conservative s 0 = Some (myTurbulence.object p m) ∧
                myTurbulence.read s (myTurbulence.object p m) = Some f.
Proof.
  destruct (size_is_invariant (H := sampleBodies) saFlow ∅ sampleIteration)
    as (_ & _ & s & Hrun & Hsize & _ & Hacc).
  assert (Hon : myTurbulence.tag s ≠ "off").
  { vm_compute in Hrun. injection Hrun as <-. vm_compute. discriminate. }
  exists s. split; [exact Hrun|]. split; [exact Hon|].
  split; [rewrite Hsize; vm_compute; reflexivity|].
  destruct (Hacc Hon myTurbulence.conservative 0%Z) as (p & m & f & Ha & _ & Hr).
  { unfold accessors. apply elem_of_cons. left. reflexivity. }
  exists p, m, f. split; [exact Ha | exact Hr].
Defined.

(** C7.  After any sequence of operations of the selector the selector
    itself (tag, equation count, dummy array, pointer) is what the
    constructor made it, so off stays off and active stays active.  When it
    was constructed off, the pointer is [NULL], the heap is the one that was
    there before the constructor ran and the flow operator is untouched.
    When not, it points to the one object added to that heap.  In both
    cases the destructor leaves exactly the heap from before construction:
    nothing to tear down when off, the owned closure when active. *)
Theorem selector_is_immutable `{MYTURBULENCE.Bodies}
    (ns : myNavierStokes.t) (h : gmap positive MYTURBULENCE.t)
    (ms : list MYTURBULENCE.method) :
  ∃ s, myTurbulence.run ms (myTurbulence.ctor ns h) = Some s ∧
       myTurbulence.self s = myTurbulence.self (myTurbulence.ctor ns h) ∧
       (myTurbulence.tag (myTurbulence.ctor ns h) = "off" →
        myTurbulence._turbulence (myTurbulence.self s) = None ∧
        myTurbulence.objects s = h ∧
        myTurbulence.flow s = ns ∧
        myTurbulence.dtor s = myTurbulence.objects s) ∧
       (myTurbulence.tag (myTurbulence.ctor ns h) ≠ "off" →
        ∃ p o, myTurbulence._turbulence (myTurbulence.self s) = Some p ∧
               h !! p = None ∧
               myTurbulence.objects s = <[p := o]> h) ∧
       myTurbulence.dtor s = h.
Proof.
  destruct (run_consistent h ms _ (ctor_consistent myTurbulence.MG_TURON ns h))
    as (s & Hrun & Hself & Hc).
  fold myTurbulence.ctor in Hrun, Hself.
  exists s. split; [exact Hrun|]. split; [exact Hself|].
  pose proof (dtor_consistent h s Hc) as Hd.
  split; [|split; [|exact Hd]].
  - intros Hoff. rewrite (run_off ms _ Hoff) in Hrun.
    injection Hrun as <-. rewrite Hd.
    unfold myTurbulence.ctor. now rewrite (ctor_off_inv _ _ _ Hoff).
  - intros Hon. unfold myTurbulence.tag in Hon. rewrite <- Hself in Hon.
    destruct Hc as [s Hoff Ho | s p o _ Hp Hfresh Ho Hsz].
    + destruct Hoff as [Hoff _]. contradiction.
    + eauto.
Qed.

(** C7 at a case with no tag (off throughout, nothing to tear down) and at
    the ["SA"] case (one closure owned throughout, torn down at the end). *)
Lemma selector_is_immutable_witness :
  (∃ s, myTurbulence.run (H := sampleBodies) sampleIteration
          (myTurbulence.ctor absentFlow ∅) = Some s ∧
        myTurbulence._turbulence (myTurbulence.self s) = None ∧
        myTurbulence.dtor s = myTurbulence.objects s) ∧
  (∃ s p o, myTurbulence.run (H := sampleBodies) sampleIteration
              (myTurbulence.ctor saFlow ∅) = Some s ∧
            myTurbulence._turbulence (myTurbulence.self s) = Some p ∧
            myTurbulence.objects s = <[p := o]> ∅ ∧
            myTurbulence.dtor s = ∅).
Proof.
  split.
  - destruct (selector_is_immutable (H := sampleBodies) absentFlow ∅ sampleIteration)
      as (s & Hrun & _ & Hoff & _ & _).
    destruct Hoff as (Hp & _ & _ & Hd); [vm_compute; reflexivity|].
    exists s. split; [exact Hrun|]. split; [exact Hp | exact Hd].
  - destruct (selector_is_immutable (H := sampleBodies) saFlow ∅ sampleIteration)
      as (s & Hrun & _ & _ & Hon & Hd).
    destruct Hon as (p & o & Hp & _ & Ho); [vm_compute; discriminate|].
    exists s, p, o. split; [exact Hrun|]. split; [exact Hp|].
    split; [exact Ho | exact Hd].
Defined.

(** C8.  Built with [MG_TURON == 0], the constructor makes the selector off
    on every mesh whose tag is not ["*"], whatever the configured tag, and
    allocates nothing.  The shipped value of the flag is 1; with it, a valid
    tag selects its closure on such a mesh too, and the selector and the
    closure constructed do not depend on the mesh tag at all. *)
Theorem multigrid_suppression
    (ns : myNavierStokes.t) (h : gmap positive MYTURBULENCE.t) :
  myMesh.tag (myNavierStokes.mesh ns) ≠ "*" →
  (Off (myTurbulence.ctor_with 0 ns h) ∧
   myTurbulence.objects (myTurbulence.ctor_with 0 ns h) = h) ∧
  myTurbulence.MG_TURON = 1%Z ∧
  (configuredTag ns = Some "SpalartAllmaras" →
   myTurbulence.tag (myTurbulence.ctor ns h) = "SpalartAllmaras" ∧
   myTurbulence.size (myTurbulence.ctor ns h) = 1%Z ∧
   equationsOwned (myTurbulence.ctor ns h) = 1%Z) ∧
  (∀ ns', myNavierStokes.time ns' = myNavierStokes.time ns →
          myMesh.V_size (myNavierStokes.mesh ns') =
            myMesh.V_size (myNavierStokes.mesh ns) →
          myTurbulence.self (myTurbulence.ctor ns' h) =
            myTurbulence.self (myTurbulence.ctor ns h) ∧
          myTurbulence.objects (myTurbulence.ctor ns' h) =
            myTurbulence.objects (myTurbulence.ctor ns h)).
Proof.
  intros Hmesh. split; [|split; [reflexivity|split]].
  - rewrite ctor_off; [done|].
    unfold dispatchTag. simpl. rewrite decide_False by exact Hmesh.
    intros Hr%recognised_not_off. now apply Hr.
  - intros Hc. unfold myTurbulence.ctor.
    assert (Hd : dispatchTag myTurbulence.MG_TURON ns = "SpalartAllmaras")
      by (rewrite dispatchTag_shipped; now rewrite Hc).
    rewrite (ctor_SpalartAllmaras _ _ _ (or_introl Hd)).
    unfold myTurbulence.tag, myTurbulence.size, equationsOwned, myTurbulence.deref.
    simpl. rewrite lookup_insert_eq. simpl. now rewrite Hd.
  - intros ns' Htime Hsize. unfold myTurbulence.ctor.
    rewrite !ctor_with_dispatch. cbv zeta.
    assert (Hd : dispatchTag myTurbulence.MG_TURON ns' =
                 dispatchTag myTurbulence.MG_TURON ns)
      by (rewrite !dispatchTag_shipped; unfold configuredTag; now rewrite Htime).
    assert (Hsa : mySpalartAllmaras.ctor ns' = mySpalartAllmaras.ctor ns)
      by (unfold mySpalartAllmaras.ctor; now rewrite Htime, Hsize).
    assert (Hkw : myKappaOmega.ctor ns' = myKappaOmega.ctor ns)
      by (unfold myKappaOmega.ctor; now rewrite Htime, Hsize).
    rewrite Hd, Hsa, Hkw.
    repeat match goal with |- context [if ?b then _ else _] => destruct b end;
      split; reflexivity.
Qed.

(** C8 at a case that asks for Spalart-Allmaras on the first agglomerated
    mesh level: off under [MG_TURON == 0], selected as shipped. *)
Lemma multigrid_suppression_witness :
  myMesh.tag (myNavierStokes.mesh coarseFlow) = "1" ∧
  Off (myTurbulence.ctor_with 0 coarseFlow ∅) ∧
  myTurbulence.tag (myTurbulence.ctor coarseFlow ∅) = "SpalartAllmaras" ∧
  myTurbulence.size (myTurbulence.ctor coarseFlow ∅) = 1%Z.
Proof.
  assert (Hmesh : myMesh.tag (myNavierStokes.mesh coarseFlow) ≠ "*")
    by (vm_compute; discriminate).
  destruct (multigrid_suppression coarseFlow ∅ Hmesh)
    as ((Hoff & _) & _ & Hsa & _).
  destruct Hsa as (Ht & Hs & _); [vm_compute; reflexivity|].
  split; [vm_compute; reflexivity|].
  split; [exact Hoff|]. split; [exact Ht | exact Hs].
Defined.

(** The clamp, cell by cell: [max( f, s )] has the cells of [f], in the
    same number and order; a cell above [s] is kept and any other cell (one
    that is not a number included) becomes [s]. *)
Lemma max_field_clamp (f : scalarField) (s : scalar) :
  length (max_field f s) = length f ∧
  ∀ i x, f !! i = Some x →
    (scalar_lt s x → max_field f s !! i = Some x) ∧
    (¬ scalar_lt s x → max_field f s !! i = Some s).
Proof.
  unfold max_field. split; [apply length_fmap|].
  intros i x Hx. unfold scalarField, scalar in *.
  rewrite list_lookup_fmap, Hx. cbn [fmap option_fmap option_map].
  unfold Foam.max, scalar_lt. destruct (s <? x)%float; split; intros H;
    congruence.
Qed.

(** C9.  Both bounds are [1e-10].  Right after construction of a closure,
    [nuTilda] is what was read from the persisted state clamped to
    [SA_SMALL], and [kappa] and [omega] are what was read clamped to
    [KW_SMALL]: the array has as many cells as were read, a cell read above
    the bound is kept as it was read, and any other cell (small, negative or
    not a number) holds the bound.  So every cell of these arrays, which are
    the ones handed out by [conservative( ic )] for every index, is at least
    [1e-10], whatever was read. *)
Theorem closures_bounded_below (ns : myNavierStokes.t) :
  mySpalartAllmaras.SA_SMALL = 1e-10%float ∧
  myKappaOmega.KW_SMALL = 1e-10%float ∧
  (∀ ic, Forall (scalar_le 1e-10)
           (mySpalartAllmaras.get (mySpalartAllmaras.ctor ns)
              (mySpalartAllmaras.conservative (mySpalartAllmaras.ctor ns) ic))) ∧
  (∀ ic, Forall (scalar_le 1e-10)
           (myKappaOmega.get (myKappaOmega.ctor ns)
              (myKappaOmega.conservative (myKappaOmega.ctor ns) ic))) ∧
  Forall (scalar_le 1e-10) (myKappaOmega._kappa (myKappaOmega.ctor ns)) ∧
  Forall (scalar_le 1e-10) (myKappaOmega._omega (myKappaOmega.ctor ns)) ∧
  (∀ restored clamped,
     (restored, clamped) ∈
       [(Time.read (myNavierStokes.time ns) "nuTilda",
         mySpalartAllmaras._nuTilda (mySpalartAllmaras.ctor ns));
        (Time.read (myNavierStokes.time ns) "kappa",
         myKappaOmega._kappa (myKappaOmega.ctor ns));
        (Time.read (myNavierStokes.time ns) "omega",
         myKappaOmega._omega (myKappaOmega.ctor ns))] →
     length clamped = length restored ∧
     Forall (scalar_le 1e-10) clamped ∧
     ∀ i x, restored !! i = Some x →
       (scalar_lt 1e-10 x → clamped !! i = Some x) ∧
       (¬ scalar_lt 1e-10 x → clamped !! i = Some 1e-10%float)).
Proof.
  split; [reflexivity|]. split; [reflexivity|].
  split; [|split; [|split; [|split]]].
  - intros ic. simpl. now apply max_field_lower.
  - intros ic. unfold myKappaOmega.conservative.
    destruct (ic =? 0)%Z; simpl; now apply max_field_lower.
  - simpl. now apply max_field_lower.
  - simpl. now apply max_field_lower.
  - intros restored clamped Hin.
    assert (Hc : clamped = max_field restored 1e-10%float).
    { repeat (apply elem_of_cons in Hin as [Heq | Hin];
                [injection Heq as -> ->; reflexivity|]).
      by apply elem_of_nil in Hin. }
    subst clamped. destruct (max_field_clamp restored 1e-10%float) as [Hlen Hcell].
    split; [exact Hlen|]. split; [now apply max_field_lower | exact Hcell].
Qed.

(** C9 on a Kappa-Omega closure constructed over persisted fields that hold
    a cell that is not a number, a cell above the bound and a cell below: the
    three cells are still there, the second is kept and the other two hold
    the bound. *)
Lemma closures_bounded_below_witness :
  myKappaOmega._kappa (myKappaOmega.ctor restoredFlow) =
    [1e-10; 2; 1e-10]%float ∧
  Forall (scalar_le 1e-10) (myKappaOmega._omega (myKappaOmega.ctor restoredFlow)).
Proof.
  destruct (closures_bounded_below restoredFlow) as (_ & _ & _ & _ & _ & Ho & H).
  split; [|exact Ho].
  destruct (H [nan; 2; 1e-12]%float
              (myKappaOmega._kappa (myKappaOmega.ctor restoredFlow)))
    as (Hlen & _ & Hcell).
  { right; left. }
  destruct (Hcell 0 nan eq_refl) as (_ & H0).
  destruct (Hcell 1 2%float eq_refl) as (H1 & _).
  destruct (Hcell 2 1e-12%float eq_refl) as (_ & H2).
  specialize (H0 ltac:(vm_compute; discriminate)).
  specialize (H1 ltac:(vm_compute; reflexivity)).
  specialize (H2 ltac:(vm_compute; discriminate)).
  apply list_eq. intros [|[|[|i]]]; [exact H0 | exact H1 | exact H2 |].
  rewrite lookup_ge_None_2 by (rewrite Hlen; simpl; lia). reflexivity.
Defined.

(** C10.  The accessors of the closures are total functions of the index.
    Those of [mySpalartAllmaras] return the arrays of the [nuTilda] equation
    for every index.  Those of [myKappaOmega] return the arrays of the kappa
    equation at index 0 and those of the omega equation at every other
    index, negative or beyond the equation count alike. *)
Theorem accessors_total_in_index
    (sa : mySpalartAllmaras.t) (kw : myKappaOmega.t) (ic : label) :
  (mySpalartAllmaras.conservative sa ic = mySpalartAllmaras.nuTilda_internalField ∧
   mySpalartAllmaras.conservative_o sa ic = mySpalartAllmaras.nuTilda_o_internalField ∧
   mySpalartAllmaras.body sa ic = mySpalartAllmaras.bodyNuTilda ∧
   mySpalartAllmaras.rhs sa ic = mySpalartAllmaras.rhsNuTilda) ∧
  (ic = 0%Z →
   myKappaOmega.conservative kw ic = myKappaOmega.kappa_internalField ∧
   myKappaOmega.conservative_o kw ic = myKappaOmega.kappa_o_internalField ∧
   myKappaOmega.body kw ic = myKappaOmega.bodyKappa ∧
   myKappaOmega.rhs kw ic = myKappaOmega.rhsKappa) ∧
  (ic ≠ 0%Z →
   myKappaOmega.conservative kw ic = myKappaOmega.omega_internalField ∧
   myKappaOmega.conservative_o kw ic = myKappaOmega.omega_o_internalField ∧
   myKappaOmega.body kw ic = myKappaOmega.bodyOmega ∧
   myKappaOmega.rhs kw ic = myKappaOmega.rhsOmega).
Proof.
  split; [repeat split|]. split.
  - intros ->. repeat split.
  - intros Hne%Z.eqb_neq.
    unfold myKappaOmega.conservative, myKappaOmega.conservative_o,
      myKappaOmega.body, myKappaOmega.rhs.
    rewrite Hne. repeat split.
Qed.

(** C10 at the indices 0, -7 and 2. *)
Lemma accessors_total_in_index_witness :
  myKappaOmega.conservative sampleKappaOmega 0 = myKappaOmega.kappa_internalField ∧
  myKappaOmega.conservative sampleKappaOmega (-7) = myKappaOmega.omega_internalField ∧
  myKappaOmega.rhs sampleKappaOmega 2 = myKappaOmega.rhsOmega.
Proof.
  destruct (accessors_total_in_index (mySpalartAllmaras.ctor absentFlow)
              sampleKappaOmega 0) as (_ & H0 & _).
  destruct (accessors_total_in_index (mySpalartAllmaras.ctor absentFlow)
              sampleKappaOmega (-7)) as (_ & _ & Hneg).
  destruct (accessors_total_in_index (mySpalartAllmaras.ctor absentFlow)
              sampleKappaOmega 2) as (_ & _ & Hbig).
  destruct (H0 eq_refl) as (Hc0 & _).
  destruct Hneg as (Hc7 & _); [discriminate|].
  destruct Hbig as (_ & _ & _ & Hr2); [discriminate|].
  split; [exact Hc0|]. split; [exact Hc7 | exact Hr2].
Defined.

(** The clamp on the sample case: the entries [0], [-3] and [1e-20] read from
    the persisted state are raised to the bound, [0.5] is kept. *)
Example clamp_on_sample :
  mySpalartAllmaras._nuTilda (mySpalartAllmaras.ctor absentFlow) =
    [0.5; 1e-10; 1e-10; 1e-10]%float ∧
  Foam.max nan 1e-10 = 1e-10%float.
Proof. split; reflexivity. Qed.

(** The previous-timestep array is a copy made before the clamp. *)
Example previous_timestep_not_clamped :
  mySpalartAllmaras._nuTilda_o (mySpalartAllmaras.ctor absentFlow) =
    [0.5; 0; -3; 1e-20]%float.
Proof. reflexivity. Qed.

(** ** Further properties of the selector and of the closures *)

Lemma SFcompare_refl (x : spec_float) :
  x ≠ S754_nan → SFcompare x x = Some Eq.
Proof.
  destruct x as [sx|sx| |sx mx ex]; simpl; intros Hx; try done.
  - now destruct sx.
  - destruct sx; rewrite Z.compare_refl, Pos.compare_cont_refl; reflexivity.
Qed.

Lemma nan_Prim2SF (x : scalar) : is_nan x = true → Prim2SF x = S754_nan.
Proof.
  unfold is_nan, PrimFloat.is_nan. rewrite FloatAxioms.eqb_spec. unfold SFeqb.
  intros Hx. destruct (Prim2SF x) as [sx|sx| |sx mx ex] eqn:E; [..|done| ];
    rewrite SFcompare_refl in Hx by discriminate; discriminate.
Qed.

Lemma ltb_nan_r (x y : scalar) : is_nan y = true → (x <? y)%float = false.
Proof.
  intros Hy%nan_Prim2SF. rewrite FloatAxioms.ltb_spec. unfold SFltb.
  rewrite Hy. now destruct (Prim2SF x).
Qed.

Lemma ltb_nan_l (x y : scalar) : is_nan x = true → (x <? y)%float = false.
Proof.
  intros Hx%nan_Prim2SF. rewrite FloatAxioms.ltb_spec. unfold SFltb.
  now rewrite Hx.
Qed.

(** X1.  When the constructor of the selector allocates a closure, the tag
    kept by the closure is the tag kept by the selector: both are the value
    of the [turbulence] entry as written in the dictionary (an alias such as
    ["SA"] is not expanded), for either value of the build flag. *)
Theorem closure_tag_agrees (mg_turon : Z)
    (ns : myNavierStokes.t) (h : gmap positive MYTURBULENCE.t)
    (p : positive) (o : MYTURBULENCE.t) :
  myTurbulence.deref (myTurbulence.ctor_with mg_turon ns h) = Some (p, o) →
  MYTURBULENCE.tag o = myTurbulence.tag (myTurbulence.ctor_with mg_turon ns h) ∧
  configuredTag ns = Some (MYTURBULENCE.tag o).
Proof.
  intros Hd.
  destruct (recognised_dec (dispatchTag mg_turon ns)) as [Hr|Hr];
    [|rewrite (ctor_off _ _ _ Hr) in Hd; discriminate].
  assert (Hcfg : configuredTag ns = Some (dispatchTag mg_turon ns)).
  { pose proof (recognised_not_off _ Hr) as Hne. revert Hne.
    unfold dispatchTag. destruct (configuredTag ns) as [w|]; simpl;
      repeat case_match; congruence. }
  assert (Hlk : (if found (Time.controlDict (myNavierStokes.time ns)) "turbulence"
                 then lookup (Time.controlDict (myNavierStokes.time ns)) "turbulence"
                 else "off") = dispatchTag mg_turon ns).
  { rewrite found_lookup. fold (configuredTag ns). now rewrite Hcfg. }
  assert (Hfound : found (Time.controlDict (myNavierStokes.time ns)) "turbulence" = true).
  { unfold found. apply bool_decide_eq_true_2. unfold configuredTag in Hcfg. eauto. }
  rewrite Hfound in Hlk.
  destruct (recognised_cases _ Hr) as [Hc|Hc].
  - rewrite (ctor_SpalartAllmaras _ _ _ Hc) in Hd |- *.
    unfold myTurbulence.deref in Hd. simpl in Hd.
    rewrite lookup_insert_eq in Hd. injection Hd as _ <-.
    unfold myTurbulence.tag. simpl.
    unfold mySpalartAllmaras.tag, mySpalartAllmaras.ctor. simpl.
    unfold myNavierStokes.time in *. rewrite Hfound, Hlk. now rewrite Hcfg.
  - rewrite (ctor_KappaOmega _ _ _ Hc) in Hd |- *.
    unfold myTurbulence.deref in Hd. simpl in Hd.
    rewrite lookup_insert_eq in Hd. injection Hd as _ <-.
    unfold myTurbulence.tag. simpl.
    unfold myKappaOmega.tag, myKappaOmega.ctor. simpl.
    unfold myNavierStokes.time in *. rewrite Hfound, Hlk. now rewrite Hcfg.
Qed.

(** X1 at the ["SA"] case: both tags are ["SA"]. *)
Lemma closure_tag_agrees_witness :
  ∃ p o, myTurbulence.deref (myTurbulence.ctor saFlow ∅) = Some (p, o) ∧
         MYTURBULENCE.tag o = "SA" ∧
         myTurbulence.tag (myTurbulence.ctor saFlow ∅) = "SA".
Proof.
  destruct (myTurbulence.deref (myTurbulence.ctor saFlow ∅)) as [[p o]|] eqn:Hd;
    [|vm_compute in Hd; discriminate].
  destruct (closure_tag_agrees myTurbulence.MG_TURON saFlow ∅ p o Hd) as [Ht Hc].
  exists p, o. split; [reflexivity|].
  assert (Hsel : myTurbulence.tag (myTurbulence.ctor saFlow ∅) = "SA")
    by (vm_compute; reflexivity).
  split; [|exact Hsel]. rewrite Ht. exact Hsel.
Defined.

Lemma run_from_ctor `{MYTURBULENCE.Bodies}
    (ns : myNavierStokes.t) (h : gmap positive MYTURBULENCE.t)
    (ms : list MYTURBULENCE.method) (s : myTurbulence.state) :
  myTurbulence.run ms (myTurbulence.ctor ns h) = Some s →
  myTurbulence.self s = myTurbulence.self (myTurbulence.ctor ns h) ∧
  consistent h s.
Proof.
  intros Hrun.
  destruct (run_consistent h ms _ (ctor_consistent myTurbulence.MG_TURON ns h))
    as (s' & Hrun' & Hself & Hc).
  fold myTurbulence.ctor in Hrun', Hself. rewrite Hrun in Hrun'.
  injection Hrun' as <-. auto.
Qed.

Lemma ctor_dummy (mg_turon : Z)
    (ns : myNavierStokes.t) (h : gmap positive MYTURBULENCE.t) :
  myTurbulence.tag (myTurbulence.ctor_with mg_turon ns h) ≠ "off" →
  myTurbulence._dummy (myTurbulence.self (myTurbulence.ctor_with mg_turon ns h)) = [].
Proof.
  destruct (recognised_dec (dispatchTag mg_turon ns)) as [Hr|Hr].
  - destruct (recognised_cases _ Hr) as [Hc|Hc].
    + now rewrite (ctor_SpalartAllmaras _ _ _ Hc).
    + now rewrite (ctor_KappaOmega _ _ _ Hc).
  - rewrite (ctor_off _ _ _ Hr). intros Hne. now contradiction Hne.
Qed.

Lemma elem_of_accessors
    (acc : myTurbulence.state → label → option myTurbulence.fieldRef) :
  acc ∈ accessors →
  acc = myTurbulence.conservative ∨ acc = myTurbulence.conservative_o ∨
  acc = myTurbulence.body ∨ acc = myTurbulence.rhs.
Proof.
  unfold accessors. intros Hacc.
  repeat (apply elem_of_cons in Hacc as [-> | Hacc]; [tauto|]).
  by apply elem_of_nil in Hacc.
Qed.

(** X2.  Switching a running closure off by assigning ["off"] through the
    reference returned by [tag()]: from then on every operation is a no-op
    and [residual()] is [-1.0], but [size()] keeps its non-zero value, the
    accessors hand out a dummy array that is empty (it was only filled by the
    off branch of the constructor), and the destructor no longer deletes the
    closure, which stays allocated. *)
Theorem switching_off_by_tag `{MYTURBULENCE.Bodies}
    (ns : myNavierStokes.t) (h : gmap positive MYTURBULENCE.t)
    (ms : list MYTURBULENCE.method) (s : myTurbulence.state) :
  myTurbulence.run ms (myTurbulence.ctor ns h) = Some s →
  myTurbulence.tag s ≠ "off" →
  (∀ ms', myTurbulence.run ms' (assignTag "off" s) = Some (assignTag "off" s)) ∧
  myTurbulence.residual (assignTag "off" s) = Some (-1)%float ∧
  (∀ acc ic, acc ∈ accessors →
     acc (assignTag "off" s) ic = Some myTurbulence.dummy) ∧
  myTurbulence.read (assignTag "off" s) myTurbulence.dummy = Some [] ∧
  myTurbulence.size (assignTag "off" s) = myTurbulence.size s ∧
  myTurbulence.size (assignTag "off" s) ≠ 0%Z ∧
  ∃ p o, myTurbulence._turbulence (myTurbulence.self s) = Some p ∧
         myTurbulence.objects s !! p = Some o ∧
         myTurbulence.dtor (assignTag "off" s) !! p = Some o.
Proof.
  intros Hrun Hon. destruct (run_from_ctor ns h ms s Hrun) as [Hself Hc].
  split; [intros ms'; now apply run_off|].
  split; [reflexivity|].
  split.
  { intros acc ic [-> | [-> | [-> | ->]]]%elem_of_accessors; reflexivity. }
  split.
  { unfold myTurbulence.read, assignTag. simpl. rewrite Hself.
    unfold myTurbulence.ctor. rewrite ctor_dummy; [reflexivity|].
    unfold myTurbulence.tag in *. fold myTurbulence.ctor. now rewrite <- Hself. }
  split; [reflexivity|].
  destruct Hc as [s Hoff Ho | s p o _ Hp Hfresh Ho Hsz].
  { destruct Hoff as [Hoff _]. contradiction. }
  split.
  { unfold myTurbulence.size, assignTag. simpl. rewrite Hsz. now destruct o. }
  exists p, o. split; [exact Hp|].
  unfold myTurbulence.dtor, assignTag. simpl.
  rewrite Ho, lookup_insert_eq. auto.
Qed.

(** X2 at the ["SA"] case after an iteration. *)
Lemma switching_off_by_tag_witness :
  ∃ s, myTurbulence.run (H := sampleBodies) sampleIteration
         (myTurbulence.ctor saFlow ∅) = Some s ∧
       myTurbulence.size (assignTag "off" s) = 1%Z ∧
       myTurbulence.read (assignTag "off" s) myTurbulence.dummy = Some [] ∧
       myTurbulence.dtor (assignTag "off" s) ≠ ∅.
Proof.
  destruct (myTurbulence.run (H := sampleBodies) sampleIteration
              (myTurbulence.ctor saFlow ∅)) as [s|] eqn:Hrun;
    [|vm_compute in Hrun; discriminate].
  assert (Hon : myTurbulence.tag s ≠ "off").
  { vm_compute in Hrun. injection Hrun as <-. vm_compute. discriminate. }
  destruct (switching_off_by_tag (H := sampleBodies) saFlow ∅ sampleIteration s Hrun Hon)
    as (_ & _ & _ & Hread & Hsize & _ & p & o & _ & _ & Hd).
  exists s. split; [reflexivity|].
  split.
  { rewrite Hsize. vm_compute in Hrun. injection Hrun as <-. reflexivity. }
  split; [exact Hread|].
  intros Hempty. rewrite Hempty in Hd. rewrite lookup_empty in Hd. discriminate.
Defined.

(** X3.  The guards test the tag, not the pointer.  Assigning any tag other
    than ["off"] to a selector that was constructed off makes every forwarded
    operation, [residual()] and every field accessor dereference the [NULL]
    pointer; the destructor deletes [NULL], which leaves the heap as it
    was. *)
Theorem switching_on_by_tag `{MYTURBULENCE.Bodies}
    (ns : myNavierStokes.t) (h : gmap positive MYTURBULENCE.t) (w : word) :
  unrecognised ns →
  w ≠ "off" →
  (∀ m, myTurbulence.invoke m (assignTag w (myTurbulence.ctor ns h)) = None) ∧
  myTurbulence.residual (assignTag w (myTurbulence.ctor ns h)) = None ∧
  (∀ acc ic, acc ∈ accessors →
     acc (assignTag w (myTurbulence.ctor ns h)) ic = None) ∧
  myTurbulence.dtor (assignTag w (myTurbulence.ctor ns h)) = h.
Proof.
  intros Hu%unrecognised_dispatch Hw. unfold myTurbulence.ctor.
  rewrite (ctor_off _ _ _ Hu).
  assert (Ht : negb (String.eqb w "off") = true)
    by (now destruct (String.eqb_spec w "off")).
  split.
  { intros m. rewrite invoke_forward. unfold myTurbulence.forward, assignTag.
    simpl. now rewrite Ht. }
  split.
  { unfold myTurbulence.residual, assignTag. simpl. now rewrite Ht. }
  split.
  { intros acc ic [-> | [-> | [-> | ->]]]%elem_of_accessors;
      unfold myTurbulence.conservative, myTurbulence.conservative_o,
        myTurbulence.body, myTurbulence.rhs, myTurbulence.accessor, assignTag;
      simpl; now rewrite Ht. }
  unfold myTurbulence.dtor, assignTag. simpl. now rewrite Ht.
Qed.

(** X3 at the case with no tag, switched to ["SA"] after construction. *)
Lemma switching_on_by_tag_witness :
  myTurbulence.advection (H := sampleBodies)
    (assignTag "SA" (myTurbulence.ctor absentFlow ∅)) = None ∧
  myTurbulence.rhs (assignTag "SA" (myTurbulence.ctor absentFlow ∅)) 0 = None.
Proof.
  assert (Hu : unrecognised absentFlow).
  { intros w Hw. vm_compute in Hw. discriminate. }
  assert (Hw : "SA" ≠ "off") by discriminate.
  destruct (switching_on_by_tag (H := sampleBodies) absentFlow ∅ "SA" Hu Hw)
    as (Hinv & _ & Hacc & _).
  split.
  - exact (Hinv MYTURBULENCE.advection).
  - apply Hacc. unfold accessors. rewrite !elem_of_cons. tauto.
Defined.

(** X4.  Aliasing between the arrays handed out by an active selector,
    after any sequence of operations.  Two different accessors never refer
    to the same array, whatever the indices.  With one equation every index
    of an accessor refers to the same array; with two equations two indices
    of an accessor refer to the same array exactly when both are 0 or both
    are not. *)
Theorem accessors_alias_within_equation `{MYTURBULENCE.Bodies}
    (ns : myNavierStokes.t) (h : gmap positive MYTURBULENCE.t)
    (ms : list MYTURBULENCE.method) (s : myTurbulence.state)
    (ic jc : label) :
  myTurbulence.run ms (myTurbulence.ctor ns h) = Some s →
  myTurbulence.tag s ≠ "off" →
  (myTurbulence.conservative s ic ≠ myTurbulence.conservative_o s jc ∧
   myTurbulence.conservative s ic ≠ myTurbulence.body s jc ∧
   myTurbulence.conservative s ic ≠ myTurbulence.rhs s jc ∧
   myTurbulence.conservative_o s ic ≠ myTurbulence.body s jc ∧
   myTurbulence.conservative_o s ic ≠ myTurbulence.rhs s jc ∧
   myTurbulence.body s ic ≠ myTurbulence.rhs s jc) ∧
  (myTurbulence.size s = 1%Z →
   ∀ acc, acc ∈ accessors → acc s ic = acc s jc) ∧
  (myTurbulence.size s = 2%Z →
   ∀ acc, acc ∈ accessors → acc s ic = acc s jc ↔ (ic = 0%Z ↔ jc = 0%Z)).
Proof.
  intros Hrun Hon. destruct (run_from_ctor ns h ms s Hrun) as [_ Hc].
  destruct Hc as [s Hoff Ho | s p o _ Hp Hfresh Ho Hsz].
  { destruct Hoff as [Hoff _]. contradiction. }
  assert (Hacc : ∀ f kc, myTurbulence.accessor f s kc =
                         Some (myTurbulence.object p (f o kc))).
  { intros f kc. now destruct (accessor_on f h s p o kc Hon Hp Ho). }
  unfold myTurbulence.conservative, myTurbulence.conservative_o,
    myTurbulence.body, myTurbulence.rhs.
  split.
  { rewrite !Hacc. destruct o as [sa|kw]; simpl;
      unfold myKappaOmega.conservative, myKappaOmega.conservative_o,
        myKappaOmega.body, myKappaOmega.rhs;
      destruct (ic =? 0)%Z, (jc =? 0)%Z; repeat split; discriminate. }
  unfold myTurbulence.size. rewrite Hsz. split.
  - intros Hone acc [-> | [-> | [-> | ->]]]%elem_of_accessors;
      unfold myTurbulence.conservative, myTurbulence.conservative_o,
        myTurbulence.body, myTurbulence.rhs; rewrite !Hacc;
      destruct o; simpl in *; try discriminate; reflexivity.
  - intros Htwo acc [-> | [-> | [-> | ->]]]%elem_of_accessors;
      unfold myTurbulence.conservative, myTurbulence.conservative_o,
        myTurbulence.body, myTurbulence.rhs; rewrite !Hacc;
      destruct o as [sa|kw]; simpl in *; try discriminate;
      unfold myKappaOmega.conservative, myKappaOmega.conservative_o,
        myKappaOmega.body, myKappaOmega.rhs;
      destruct (Z.eqb_spec ic 0), (Z.eqb_spec jc 0);
      split; intros Heq; try tauto; try discriminate.
Qed.

(** X4 at the ["KappaOmega"] case: index 1 and index 7 of [rhs] are the same
    array, index 0 is another one. *)
Lemma accessors_alias_within_equation_witness :
  ∃ s, myTurbulence.run (H := sampleBodies) sampleIteration
         (myTurbulence.ctor kwFlow ∅) = Some s ∧
       myTurbulence.rhs s 1 = myTurbulence.rhs s 7 ∧
       myTurbulence.rhs s 0 ≠ myTurbulence.rhs s 7 ∧
       myTurbulence.conservative s 0 ≠ myTurbulence.rhs s 0.
Proof.
  destruct (myTurbulence.run (H := sampleBodies) sampleIteration
              (myTurbulence.ctor kwFlow ∅)) as [s|] eqn:Hrun;
    [|vm_compute in Hrun; discriminate].
  assert (Hs : myTurbulence.tag s ≠ "off" ∧ myTurbulence.size s = 2%Z).
  { vm_compute in Hrun. injection Hrun as <-. split; [vm_compute; discriminate|reflexivity]. }
  destruct Hs as [Hon Htwo].
  destruct (accessors_alias_within_equation (H := sampleBodies)
              kwFlow ∅ sampleIteration s 1 7 Hrun Hon) as (_ & _ & H17).
  destruct (accessors_alias_within_equation (H := sampleBodies)
              kwFlow ∅ sampleIteration s 0 7 Hrun Hon) as (_ & _ & H07).
  destruct (accessors_alias_within_equation (H := sampleBodies)
              kwFlow ∅ sampleIteration s 0 0 Hrun Hon) as ((_ & _ & Hcr & _) & _ & _).
  assert (Hin : myTurbulence.rhs ∈ accessors)
    by (unfold accessors; rewrite !elem_of_cons; tauto).
  exists s. split; [reflexivity|]. split; [|split; [|exact Hcr]].
  - apply (H17 Htwo _ Hin). split; discriminate.
  - intros Heq. apply (H07 Htwo _ Hin) in Heq. destruct Heq as [Heq _].
    specialize (Heq eq_refl). discriminate.
Defined.

(** X5.  [myKappaOmega::residual()] and NaN.  A kappa residual that is not
    a number is hidden: the combined residual is then the omega residual.  An
    omega residual that is not a number is reported: the combined residual is
    then not a number. *)
Theorem residual_hides_nan_kappa (kw : myKappaOmega.t) :
  (is_nan (myKappaOmega._residualKappa kw) = true →
   myKappaOmega.residual kw = myKappaOmega._residualOmega kw) ∧
  (is_nan (myKappaOmega._residualOmega kw) = true →
   is_nan (myKappaOmega.residual kw) = true).
Proof.
  unfold myKappaOmega.residual, Foam.max. split.
  - intros Hk. now rewrite (ltb_nan_r _ _ Hk).
  - intros Ho. now rewrite (ltb_nan_l _ _ Ho).
Qed.

(** X5 at a closure whose kappa residual is NaN and omega residual 0.25. *)
Lemma residual_hides_nan_kappa_witness :
  is_nan (myKappaOmega._residualKappa divergedKappaOmega) = true ∧
  myKappaOmega.residual divergedKappaOmega = 0.25%float.
Proof.
  split; [reflexivity|].
  exact (proj1 (residual_hides_nan_kappa divergedKappaOmega) eq_refl).
Defined.

Lemma flow_tag_ctor (T : Time.t) (M : myMesh.t) :
  myNavierStokes.tag (myNavierStokes.ctor T M) =
    let t0 := default "Euler" (configuredPhysics T) in
    let t1 := if String.eqb t0 "Euler" then "E" else t0 in
    if String.eqb t1 "ReynoldsAveragedNavierStokes" then "RANS" else t1.
Proof.
  unfold myNavierStokes.ctor, myNavierStokes.tag, configuredPhysics. cbv zeta.
  rewrite <- (found_lookup _ "physics" "Euler").
  match goal with
  | |- context [if found ?d ?k then myNavierStokes.set_tag ?l ?x else _] =>
      set (this0 := x); set (L := l); set (c := found d k)
  end.
  assert (H1 : myNavierStokes._tag (if c then myNavierStokes.set_tag L this0 else this0)
               = if c then L else "Euler") by (destruct c; reflexivity).
  revert H1. generalize (if c then myNavierStokes.set_tag L this0 else this0).
  generalize (if c then L else "Euler"). clear. intros w this1 H1.
  rewrite H1. destruct (String.eqb w "Euler").
  - cbn [myNavierStokes.set_tag myNavierStokes._tag]. reflexivity.
  - rewrite H1. now destruct (String.eqb w "ReynoldsAveragedNavierStokes").
Qed.

(** X6.  The tag of the flow operator after construction.  It is never
    ["Euler"] nor ["ReynoldsAveragedNavierStokes"]: it is ["E"] exactly when
    the [physics] entry is absent, ["Euler"] or ["E"], ["RANS"] exactly when
    the entry is ["ReynoldsAveragedNavierStokes"] or ["RANS"], and any other
    value of the entry is kept as written. *)
Theorem flow_tag_normalised (T : Time.t) (M : myMesh.t) :
  myNavierStokes.tag (myNavierStokes.ctor T M) ≠ "Euler" ∧
  myNavierStokes.tag (myNavierStokes.ctor T M) ≠ "ReynoldsAveragedNavierStokes" ∧
  (myNavierStokes.tag (myNavierStokes.ctor T M) = "E" ↔
   configuredPhysics T = None ∨ configuredPhysics T = Some "Euler" ∨
   configuredPhysics T = Some "E") ∧
  (myNavierStokes.tag (myNavierStokes.ctor T M) = "RANS" ↔
   configuredPhysics T = Some "ReynoldsAveragedNavierStokes" ∨
   configuredPhysics T = Some "RANS") ∧
  (∀ w, configuredPhysics T = Some w →
        w ≠ "Euler" → w ≠ "ReynoldsAveragedNavierStokes" →
        myNavierStokes.tag (myNavierStokes.ctor T M) = w).
Proof.
  rewrite flow_tag_ctor. cbv zeta.
  destruct (configuredPhysics T) as [w|]; cbn [default from_option id].
  - destruct (String.eqb_spec w "Euler") as [->|H1].
    { cbn. repeat split; try discriminate; auto; try congruence.
      intros [?|?]; discriminate. }
    destruct (String.eqb_spec w "ReynoldsAveragedNavierStokes") as [->|H2].
    { repeat split; try discriminate; auto; try congruence.
      intros [?|[?|?]]; discriminate. }
    repeat split; try assumption.
    + intros ->. auto.
    + intros [?|[?|?]]; congruence.
    + intros ->. auto.
    + intros [?|?]; congruence.
    + intros ? [= <-] _ _. reflexivity.
  - cbn. repeat split; try discriminate; auto.
    intros [?|?]; discriminate.
Qed.

(** X7.  The constructor of [mySolver] calls [system] itself at most once:
    exactly when the [clear] entry is ["all"], to remove the contents of the
    [Log] folder of the case, or of its parent directory in a parallel run;
    with any other value, or no entry, it makes no call of its own.  The
    call comes before [new myTimeStepping( ... )], so the commands of the
    whole construction are this one, if any, followed by whatever the
    constructor of [myTimeStepping] runs. *)
Theorem log_cleared_only_on_all (nested : Time.t → myMesh.t → list string)
    (nProcs : Z) (T : Time.t) (M : myMesh.t) :
  (configuredClear T = Some "all" →
   (mySolver.ctor nProcs T M).2 =
     ["rm " +:+
      (Time.path T +:+ (if (1 <? nProcs)%Z then "/.." else "") +:+ "/Log/*")
      +:+ " > /dev/null 2>&1"] ∧
   constructionCommands nested nProcs T M =
     ("rm " +:+
      (Time.path T +:+ (if (1 <? nProcs)%Z then "/.." else "") +:+ "/Log/*")
      +:+ " > /dev/null 2>&1") :: nested T M) ∧
  (configuredClear T ≠ Some "all" →
   (mySolver.ctor nProcs T M).2 = [] ∧
   constructionCommands nested nProcs T M = nested T M).
Proof.
  unfold constructionCommands, mySolver.ctor, configuredClear. cbv zeta. simpl.
  rewrite (found_lookup (Time.controlDict T) "clear" "off").
  split.
  - intros ->. split; reflexivity.
  - intros Hne. destruct (Time.controlDict T !! "clear") as [w|];
      cbn [default from_option id]; [|split; reflexivity].
    destruct (String.eqb_spec w "all") as [-> | _]; [now contradiction Hne|].
    split; reflexivity.
Qed.

(** X7 at a serial case that asks for the folder to be cleared and at a
    parallel case that does not, with a constructor of [myTimeStepping] that
    runs one command. *)
Lemma log_cleared_only_on_all_witness :
  constructionCommands (λ T _, ["mkdir " +:+ Time.path T +:+ "/Log"])
    1 (sampleTime {["clear" := "all"]}) (myMesh.ctor 4 0) =
    ["rm case/Log/* > /dev/null 2>&1"; "mkdir case/Log"] ∧
  (mySolver.ctor 4 (sampleTime {["clear" := "logs"]}) (myMesh.ctor 4 0)).2 = [].
Proof.
  split.
  - exact (proj2 (proj1 (log_cleared_only_on_all
                           (λ T _, ["mkdir " +:+ Time.path T +:+ "/Log"])
                           1 (sampleTime {["clear" := "all"]})
                           (myMesh.ctor 4 0)) eq_refl)).
  - apply (proj2 (log_cleared_only_on_all (λ _ _, [])
                    4 (sampleTime {["clear" := "logs"]}) (myMesh.ctor 4 0))).
    vm_compute. discriminate.
Defined.

(** X6 at two cases. *)
Lemma flow_tag_normalised_witness :
  myNavierStokes.tag
    (myNavierStokes.ctor
       (sampleTime {["physics" := "ReynoldsAveragedNavierStokes"]})
       (myMesh.ctor 4 0)) = "RANS" ∧
  myNavierStokes.tag (myNavierStokes.ctor (sampleTime ∅) (myMesh.ctor 4 0)) = "E".
Proof.
  destruct (flow_tag_normalised
              (sampleTime {["physics" := "ReynoldsAveragedNavierStokes"]})
              (myMesh.ctor 4 0)) as (_ & _ & _ & HR & _).
  destruct (flow_tag_normalised (sampleTime ∅) (myMesh.ctor 4 0))
    as (_ & _ & HE & _ & _).
  split.
  - apply HR. left. vm_compute. reflexivity.
  - apply HE. left. vm_compute. reflexivity.
Defined.

(** ** The tags of the mesh *)

Lemma pretty_N_go_ne_star (x : N) (s : string) :
  s ≠ "*" → pretty_N_go x s ≠ "*".
Proof.
  revert s. induction (N.lt_wf_0 x) as [x _ IH]; intros s Hs.
  assert (x = 0 ∨ 0 < x)%N as [-> | Hpos] by lia.
  - now rewrite pretty_N_go_0.
  - rewrite pretty_N_go_step by done. apply IH.
    { now apply N.div_lt. }
    unfold pretty_N_char. by repeat case_match.
Qed.

Lemma name_ne_star (level : label) : (0 < level)%Z → name level ≠ "*".
Proof.
  destruct level as [|q|q]; intros Hpos; try lia.
  unfold name, pretty, pretty_Z, pretty, pretty_positive, pretty, pretty_N.
  destruct (decide (N.pos q = 0%N)); [discriminate|].
  now apply pretty_N_go_ne_star.
Qed.

Lemma mesh_tag_star_level (ncells : nat) (level : label) :
  myMesh.tag (myMesh.ctor ncells level) = "*" ↔ (level ≤ 0)%Z.
Proof.
  unfold myMesh.ctor, myMesh.tag. simpl.
  destruct (Z.ltb_spec 0 level) as [Hpos|Hle].
  - split; [intros Hs; now apply name_ne_star in Hs | lia].
  - split; [lia | reflexivity].
Qed.

(** X8.  The tag the constructor gives a mesh: ["*"] exactly for the primary
    mesh (agglomeration level 0 or below), and for the agglomerated levels
    the level number, so that two different levels never share a tag.  The
    id is the level. *)
Theorem mesh_tag_identifies_level (ncells ncells' : nat) (level level' : label) :
  myMesh._id (myMesh.ctor ncells level) = level ∧
  (myMesh.tag (myMesh.ctor ncells level) = "*" ↔ (level ≤ 0)%Z) ∧
  ((0 < level)%Z → (0 < level')%Z →
   myMesh.tag (myMesh.ctor ncells level) = myMesh.tag (myMesh.ctor ncells' level') →
   level = level').
Proof.
  split; [reflexivity|]. split; [apply mesh_tag_star_level|].
  unfold myMesh.ctor, myMesh.tag. simpl.
  - intros Hl Hl'.
    rewrite (proj2 (Z.ltb_lt 0 level) Hl), (proj2 (Z.ltb_lt 0 level') Hl').
    unfold name. apply pretty_Z_inj.
Qed.

(** X8 at levels 0, 1 and 2. *)
Lemma mesh_tag_identifies_level_witness :
  myMesh.tag (myMesh.ctor 4 0) = "*" ∧
  myMesh.tag (myMesh.ctor 4 1) ≠ myMesh.tag (myMesh.ctor 2 2).
Proof.
  destruct (mesh_tag_identifies_level 4 4 0 0) as (_ & H0 & _).
  destruct (mesh_tag_identifies_level 4 2 1 2) as (_ & _ & H12).
  split; [apply H0; lia|].
  intros Heq. apply H12 in Heq; [discriminate | lia | lia].
Defined.

(** X9.  Built with [MG_TURON == 0], the selector of every flow operator
    constructed on an agglomerated mesh level is off, whatever the case asks
    for, and on the primary mesh it is the selector of the shipped build. *)
Theorem coarse_levels_run_without_turbulence
    (T : Time.t) (ncells : nat) (level : label)
    (h : gmap positive MYTURBULENCE.t) :
  ((0 < level)%Z →
   Off (myTurbulence.ctor_with 0
          (myNavierStokes.ctor T (myMesh.ctor ncells level)) h) ∧
   myTurbulence.objects
     (myTurbulence.ctor_with 0
        (myNavierStokes.ctor T (myMesh.ctor ncells level)) h) = h) ∧
  ((level ≤ 0)%Z →
   myTurbulence.ctor_with 0
     (myNavierStokes.ctor T (myMesh.ctor ncells level)) h =
   myTurbulence.ctor (myNavierStokes.ctor T (myMesh.ctor ncells level)) h).
Proof.
  assert (Hmesh : myNavierStokes.mesh
                    (myNavierStokes.ctor T (myMesh.ctor ncells level)) =
                  myMesh.ctor ncells level).
  { unfold myNavierStokes.ctor, myNavierStokes.mesh. cbv zeta.
    repeat match goal with
      | |- context [if ?b then _ else _] => destruct b
      end; reflexivity. }
  split.
  - intros Hpos. rewrite ctor_off; [done|].
    unfold dispatchTag. simpl. rewrite Hmesh.
    rewrite decide_False.
    + intros Hr%recognised_not_off. now apply Hr.
    + intros Hs. apply (mesh_tag_star_level ncells level) in Hs. lia.
  - intros Hle. unfold myTurbulence.ctor. rewrite !ctor_with_dispatch.
    assert (Hd : dispatchTag 0 (myNavierStokes.ctor T (myMesh.ctor ncells level)) =
                 dispatchTag myTurbulence.MG_TURON
                   (myNavierStokes.ctor T (myMesh.ctor ncells level))).
    { unfold dispatchTag. simpl. rewrite Hmesh. rewrite decide_True; [reflexivity|].
      now apply (mesh_tag_star_level ncells level). }
    now rewrite Hd.
Qed.

(** X9 at a case that asks for Spalart-Allmaras, on level 2 and on the
    primary mesh. *)
Lemma coarse_levels_run_without_turbulence_witness :
  Off (myTurbulence.ctor_with 0
         (myNavierStokes.ctor (sampleTime {["turbulence" := "SA"]})
            (myMesh.ctor 4 2)) ∅) ∧
  myTurbulence.size
    (myTurbulence.ctor_with 0
       (myNavierStokes.ctor (sampleTime {["turbulence" := "SA"]})
          (myMesh.ctor 4 0)) ∅) = 1%Z.
Proof.
  destruct (coarse_levels_run_without_turbulence
              (sampleTime {["turbulence" := "SA"]}) 4 2 ∅) as [Hcoarse _].
  destruct (coarse_levels_run_without_turbulence
              (sampleTime {["turbulence" := "SA"]}) 4 0 ∅) as [_ Hfine].
  split.
  - apply Hcoarse. lia.
  - rewrite Hfine by lia. vm_compute. reflexivity.
Defined.

Lemma moving_tag_ctor (T : Time.t) :
  myMeshMoving.tagMoving (myMeshMoving.ctor T) =
    (let t1 := default "off" (configuredMoving T) in
     let t2 := if String.eqb t1 "ALE"
                  || String.eqb t1 "ArbitraryLagrangianEulerian"
               then "ALE" else t1 in
     if String.eqb t2 "T" || String.eqb t2 "Transpiration" then "T" else t2) ∧
  myMeshMoving.isMoving (myMeshMoving.ctor T) =
    if String.eqb (myMeshMoving.tagMoving (myMeshMoving.ctor T)) "ALE"
       || String.eqb (myMeshMoving.tagMoving (myMeshMoving.ctor T)) "T"
    then "on" else "off".
Proof.
  unfold myMeshMoving.ctor, myMeshMoving.tagMoving, myMeshMoving.isMoving,
    configuredMoving. cbv zeta.
  rewrite (found_lookup (Time.controlDict T) "moving" "off"). split; reflexivity.
Qed.

(** X10.  The moving-mesh options after construction of the mesh.  The
    formulation tag is ["ALE"] exactly when the [moving] entry is ["ALE"] or
    ["ArbitraryLagrangianEulerian"], and ["T"] exactly when it is ["T"] or
    ["Transpiration"]; the mesh is moving (["on"]) exactly in these four
    cases and is ["off"] otherwise.  A value that is none of the four is kept
    as the formulation tag, as written, with the mesh not moving. *)
Theorem moving_mesh_options (T : Time.t) :
  (myMeshMoving.tagMoving (myMeshMoving.ctor T) = "ALE" ↔
   configuredMoving T = Some "ALE" ∨
   configuredMoving T = Some "ArbitraryLagrangianEulerian") ∧
  (myMeshMoving.tagMoving (myMeshMoving.ctor T) = "T" ↔
   configuredMoving T = Some "T" ∨ configuredMoving T = Some "Transpiration") ∧
  (myMeshMoving.isMoving (myMeshMoving.ctor T) = "on" ↔
   myMeshMoving.tagMoving (myMeshMoving.ctor T) = "ALE" ∨
   myMeshMoving.tagMoving (myMeshMoving.ctor T) = "T") ∧
  (myMeshMoving.isMoving (myMeshMoving.ctor T) = "on" ∨
   myMeshMoving.isMoving (myMeshMoving.ctor T) = "off") ∧
  (myMeshMoving.isMoving (myMeshMoving.ctor T) = "off" →
   myMeshMoving.tagMoving (myMeshMoving.ctor T) =
     default "off" (configuredMoving T)).
Proof.
  destruct (moving_tag_ctor T) as [Ht Hm]. rewrite Hm. clear Hm.
  rewrite Ht. clear Ht. cbv zeta.
  destruct (configuredMoving T) as [w|]; cbn [default from_option id].
  - destruct (String.eqb_spec w "ALE") as [-> | H1].
    { cbn. repeat split; try discriminate; auto.
      all: try (intros [? | ?]; discriminate). }
    destruct (String.eqb_spec w "ArbitraryLagrangianEulerian") as [-> | H2].
    { cbn. repeat split; try discriminate; auto.
      all: try (intros [? | ?]; discriminate). }
    cbn [orb].
    destruct (String.eqb_spec w "T") as [-> | H3].
    { cbn. repeat split; try discriminate; auto.
      all: try (intros [? | ?]; discriminate). }
    destruct (String.eqb_spec w "Transpiration") as [-> | H4].
    { cbn. repeat split; try discriminate; auto.
      all: try (intros [? | ?]; discriminate). }
    cbn [orb].
    destruct (String.eqb_spec w "ALE") as [? | _]; [contradiction|].
    destruct (String.eqb_spec w "T") as [? | _]; [contradiction|].
    cbn [orb]. repeat split; try discriminate; auto; try congruence.
    all: try (intros [? | ?]; congruence).
  - cbn. repeat split; try discriminate; auto.
    all: try (intros [? | ?]; discriminate).
Qed.

(** X10 at a case with the long name of the formulation and at a case with
    a misspelt one. *)
Lemma moving_mesh_options_witness :
  myMeshMoving.tagMoving
    (myMeshMoving.ctor (sampleTime {["moving" := "ArbitraryLagrangianEulerian"]}))
    = "ALE" ∧
  myMeshMoving.tagMoving (myMeshMoving.ctor (sampleTime {["moving" := "ale"]}))
    = "ale".
Proof.
  destruct (moving_mesh_options
              (sampleTime {["moving" := "ArbitraryLagrangianEulerian"]}))
    as (HALE & _).
  destruct (moving_mesh_options (sampleTime {["moving" := "ale"]}))
    as (_ & _ & _ & _ & Hoff).
  split.
  - apply HALE. right. vm_compute. reflexivity.
  - rewrite Hoff; vm_compute; reflexivity.
Defined.

(** ** The interface selector *)

Section Interface.

Context {Fluid State : Type} `{!MYINTERFACE.Bodies Fluid State}.
Implicit Types (fluid : Fluid) (h : gmap positive (MYINTERFACE.t State)).
Implicit Types (s : myInterface.state Fluid State).

Lemma recognisedInterface_cases (w : word) :
  recognisedInterface w →
  (w = "Rigid" ∨ w = "R") ∨ (w = "Modal" ∨ w = "M").
Proof.
  unfold recognisedInterface. intros Hw.
  repeat (apply elem_of_cons in Hw as [-> | Hw]; [tauto|]).
  by apply elem_of_nil in Hw.
Qed.

Lemma recognisedInterface_dec (w : word) : Decision (recognisedInterface w).
Proof. unfold recognisedInterface. apply _. Defined.

Lemma interface_ctor_dispatch fluid h :
  myInterface.ctor fluid h =
    let tag1 := default "off" (configuredInterface fluid) in
    if String.eqb tag1 "Rigid" || String.eqb tag1 "R" then
      {| myInterface.self :=
           {| myInterface._tag := tag1;
              myInterface._interface := Some (fresh (dom h)) |};
         myInterface.fluidSolver := fluid;
         myInterface.objects :=
           <[fresh (dom h) :=
               {| MYINTERFACE.classOf := MYINTERFACE.myRigid;
                  MYINTERFACE.stateOf :=
                    MYINTERFACE.construct MYINTERFACE.myRigid fluid |}]> h |}
    else if String.eqb tag1 "Modal" || String.eqb tag1 "M" then
      {| myInterface.self :=
           {| myInterface._tag := tag1;
              myInterface._interface := Some (fresh (dom h)) |};
         myInterface.fluidSolver := fluid;
         myInterface.objects :=
           <[fresh (dom h) :=
               {| MYINTERFACE.classOf := MYINTERFACE.myModal;
                  MYINTERFACE.stateOf :=
                    MYINTERFACE.construct MYINTERFACE.myModal fluid |}]> h |}
    else
      {| myInterface.self :=
           {| myInterface._tag := "off"; myInterface._interface := None |};
         myInterface.fluidSolver := fluid;
         myInterface.objects := h |}.
Proof.
  unfold myInterface.ctor, myInterface.new, configuredInterface. cbv zeta.
  now rewrite found_lookup.
Qed.

Lemma interface_ctor_off fluid h :
  ¬ recognisedInterface (default "off" (configuredInterface fluid)) →
  myInterface.ctor fluid h =
    {| myInterface.self :=
         {| myInterface._tag := "off"; myInterface._interface := None |};
       myInterface.fluidSolver := fluid;
       myInterface.objects := h |}.
Proof.
  intros Hn. rewrite interface_ctor_dispatch. cbv zeta.
  unfold recognisedInterface in Hn.
  set (w := default "off" (configuredInterface fluid)) in *.
  destruct (String.eqb_spec w "Rigid") as [e|_];
    [exfalso; apply Hn; rewrite e; set_solver|].
  destruct (String.eqb_spec w "R") as [e|_];
    [exfalso; apply Hn; rewrite e; set_solver|].
  destruct (String.eqb_spec w "Modal") as [e|_];
    [exfalso; apply Hn; rewrite e; set_solver|].
  destruct (String.eqb_spec w "M") as [e|_];
    [exfalso; apply Hn; rewrite e; set_solver|].
  reflexivity.
Qed.

Lemma interface_ctor_consistent fluid h :
  interfaceConsistent h (myInterface.ctor fluid h).
Proof.
  destruct (recognisedInterface_dec (default "off" (configuredInterface fluid)))
    as [Hr|Hr].
  - rewrite interface_ctor_dispatch. cbv zeta.
    destruct (recognisedInterface_cases _ Hr) as [[-> | ->] | [-> | ->]]; simpl;
      (eapply (interfaceConsistent_on h _ (fresh (dom h))); simpl;
       [discriminate | reflexivity | apply not_elem_of_dom, is_fresh | reflexivity]).
  - rewrite (interface_ctor_off _ _ Hr). now apply interfaceConsistent_off.
Qed.

Lemma interface_tag_off_test s :
  myInterface._tag (myInterface.self s) = "off" →
  negb (String.eqb (myInterface._tag (myInterface.self s)) "off") = false.
Proof. intros ->. reflexivity. Qed.

Lemma interface_tag_on_test s :
  myInterface._tag (myInterface.self s) ≠ "off" →
  negb (String.eqb (myInterface._tag (myInterface.self s)) "off") = true.
Proof.
  intros Hne.
  now destruct (String.eqb_spec (myInterface._tag (myInterface.self s)) "off").
Qed.

Lemma interface_invoke_off (op : myInterface.operation) s :
  myInterface._tag (myInterface.self s) = "off" →
  myInterface.invoke op s = Some s.
Proof.
  intros Hoff.
  destruct op; simpl;
    unfold myInterface.iterate, myInterface.statistics, myInterface.increment;
    now rewrite interface_tag_off_test.
Qed.

Lemma interface_run_off (ops : list myInterface.operation) s :
  myInterface._tag (myInterface.self s) = "off" →
  myInterface.run ops s = Some s.
Proof.
  intros Hoff. induction ops as [|op ops IH]; simpl; [reflexivity|].
  rewrite interface_invoke_off by assumption. exact IH.
Qed.

Lemma interface_callAt_on h (m : MYINTERFACE.method) s p o :
  myInterface._tag (myInterface.self s) ≠ "off" →
  myInterface._interface (myInterface.self s) = Some p →
  h !! p = None →
  myInterface.objects s = <[p := o]> h →
  ∃ s', myInterface.callAt m p s = Some s' ∧
        myInterface.self s' = myInterface.self s ∧
        interfaceConsistent h s'.
Proof.
  intros Hon Hp Hfresh Ho. unfold myInterface.callAt.
  rewrite Ho, lookup_insert_eq. simpl.
  eexists. split; [reflexivity|]. split; [reflexivity|].
  apply (interfaceConsistent_on h _ p
           (MYINTERFACE.call m (myInterface.fluidSolver s) o).2);
    simpl; try assumption.
  apply insert_insert_eq.
Qed.

Lemma interface_invoke_consistent h (op : myInterface.operation) s :
  interfaceConsistent h s →
  ∃ s', myInterface.invoke op s = Some s' ∧
        myInterface.self s' = myInterface.self s ∧
        interfaceConsistent h s'.
Proof.
  intros Hc. destruct Hc as [s Hoff Hp Ho | s p o Hon Hp Hfresh Ho].
  - exists s. split; [now apply interface_invoke_off|]. split; [reflexivity|].
    now apply interfaceConsistent_off.
  - destruct op; simpl;
      unfold myInterface.iterate, myInterface.statistics, myInterface.increment;
      rewrite (interface_tag_on_test _ Hon), Hp; simpl.
    + now apply (interface_callAt_on h _ s p o).
    + now apply (interface_callAt_on h _ s p o).
    + destruct (interface_callAt_on h MYINTERFACE.iterate s p o Hon Hp Hfresh Ho)
        as (s1 & H1 & Hself1 & Hc1).
      rewrite H1. simpl.
      destruct Hc1 as [s1 Hoff1 _ _ | s1 p1 o1 Hon1 Hp1 _ Ho1].
      { rewrite Hself1 in Hoff1. contradiction. }
      assert (p1 = p) as -> by (rewrite Hself1, Hp in Hp1; congruence).
      destruct (interface_callAt_on h MYINTERFACE.statistics s1 p o1 Hon1 Hp1 Hfresh Ho1)
        as (s2 & H2 & Hself2 & Hc2).
      exists s2. split; [exact H2|]. split; [congruence | exact Hc2].
Qed.

Lemma interface_run_consistent h (ops : list myInterface.operation) s :
  interfaceConsistent h s →
  ∃ s', myInterface.run ops s = Some s' ∧
        myInterface.self s' = myInterface.self s ∧
        interfaceConsistent h s'.
Proof.
  revert s. induction ops as [|op ops IH]; intros s Hc; simpl.
  - eauto.
  - destruct (interface_invoke_consistent h op s Hc) as (s1 & Hf & Hself & Hc1).
    rewrite Hf. simpl.
    destruct (IH s1 Hc1) as (s' & Hr & Hself' & Hc').
    exists s'. split; [exact Hr|]. split; [congruence | exact Hc'].
Qed.

Lemma elem_of_interfaceAccessors
    (acc : myInterface.state Fluid State →
           option (positive * MYINTERFACE.quantity)) :
  acc ∈ interfaceAccessors → ∃ x, acc = myInterface.access x.
Proof.
  unfold interfaceAccessors. intros Hacc.
  repeat (apply elem_of_cons in Hacc as [-> | Hacc]; [eexists; reflexivity|]).
  by apply elem_of_nil in Hacc.
Qed.

End Interface.

(** X11.  Construction of the interface selector.  With the tag ["Rigid"] or
    ["R"] one [myRigid] is allocated on the fluid solver, with ["Modal"] or
    ["M"] one [myModal], at an address that was free, and the tag is kept as
    written; with any other value, or no [interface] entry, nothing is
    allocated, the tag is ["off"] and the pointer is [NULL]. *)
Theorem interface_construction {Fluid State : Type}
    `{!MYINTERFACE.Bodies Fluid State}
    (fluid : Fluid) (h : gmap positive (MYINTERFACE.t State)) :
  (configuredInterface fluid = Some "Rigid" ∨ configuredInterface fluid = Some "R" →
   ∃ p, myInterface._interface (myInterface.self (myInterface.ctor fluid h)) = Some p ∧
        h !! p = None ∧
        myInterface.objects (myInterface.ctor fluid h) =
          <[p := {| MYINTERFACE.classOf := MYINTERFACE.myRigid;
                    MYINTERFACE.stateOf :=
                      MYINTERFACE.construct MYINTERFACE.myRigid fluid |}]> h ∧
        configuredInterface fluid = Some (myInterface.tag (myInterface.ctor fluid h))) ∧
  (configuredInterface fluid = Some "Modal" ∨ configuredInterface fluid = Some "M" →
   ∃ p, myInterface._interface (myInterface.self (myInterface.ctor fluid h)) = Some p ∧
        h !! p = None ∧
        myInterface.objects (myInterface.ctor fluid h) =
          <[p := {| MYINTERFACE.classOf := MYINTERFACE.myModal;
                    MYINTERFACE.stateOf :=
                      MYINTERFACE.construct MYINTERFACE.myModal fluid |}]> h ∧
        configuredInterface fluid = Some (myInterface.tag (myInterface.ctor fluid h))) ∧
  ((∀ w, configuredInterface fluid = Some w → ¬ recognisedInterface w) →
   myInterface.tag (myInterface.ctor fluid h) = "off" ∧
   myInterface._interface (myInterface.self (myInterface.ctor fluid h)) = None ∧
   myInterface.objects (myInterface.ctor fluid h) = h).
Proof.
  split; [|split].
  - intros Hc. rewrite interface_ctor_dispatch. cbv zeta.
    exists (fresh (dom h)).
    destruct Hc as [Hc | Hc]; rewrite Hc; simpl;
      (split; [reflexivity|]; split; [apply not_elem_of_dom, is_fresh|];
       split; reflexivity).
  - intros Hc. rewrite interface_ctor_dispatch. cbv zeta.
    exists (fresh (dom h)).
    destruct Hc as [Hc | Hc]; rewrite Hc; simpl;
      (split; [reflexivity|]; split; [apply not_elem_of_dom, is_fresh|];
       split; reflexivity).
  - intros Hu. rewrite interface_ctor_off; [done|].
    destruct (configuredInterface fluid) as [w|]; simpl.
    + now apply Hu.
    + intros [[? | ?] | [? | ?]]%recognisedInterface_cases; discriminate.
Qed.

(** X11 at a fluid solver whose dictionary asks for ["R"] and at one whose
    dictionary asks for an interface that is not there. *)
Lemma interface_construction_witness :
  myInterface.tag
    (myInterface.ctor (H := sampleInterfaceBodies)
       ({["interface" := "R"]}, 0) ∅) = "R" ∧
  myInterface.tag
    (myInterface.ctor (H := sampleInterfaceBodies)
       ({["interface" := "MBDyn"]}, 0) ∅) = "off".
Proof.
  destruct (interface_construction (H := sampleInterfaceBodies)
              ({["interface" := "R"]}, 0) ∅) as (HR & _ & _).
  destruct (interface_construction (H := sampleInterfaceBodies)
              ({["interface" := "MBDyn"]}, 0) ∅) as (_ & _ & Hoff).
  split.
  - destruct HR as (p & _ & _ & _ & Ht); [right; vm_compute; reflexivity|].
    apply (inj Some). rewrite <- Ht. vm_compute. reflexivity.
  - apply Hoff. intros w Hw. vm_compute in Hw. injection Hw as <-.
    unfold recognisedInterface. intros Hin.
    repeat (apply elem_of_cons in Hin as [Heq | Hin]; [discriminate|]).
    by apply elem_of_nil in Hin.
Defined.

(** X12.  An interface selector that was constructed off: every sequence of
    [iterate()], [statistics()] and [operator++] leaves the selector, the
    fluid solver and the heap as they were, [fluid()] returns [NULL] and the
    destructor deletes nothing; but each of the eleven input-output accessors
    ([Fa()], [Ma()], [Qa()], [s()], [psi()], [sdot()], [psidot()], [q()],
    [qdot()], [solver()], [reference()]) dereferences the [NULL] pointer,
    since none of them tests the tag. *)
Theorem interface_off_accessors_dereference_null {Fluid State : Type}
    `{!MYINTERFACE.Bodies Fluid State}
    (fluid : Fluid) (h : gmap positive (MYINTERFACE.t State)) :
  (∀ w, configuredInterface fluid = Some w → ¬ recognisedInterface w) →
  (∀ ops, myInterface.run ops (myInterface.ctor fluid h) =
          Some (myInterface.ctor fluid h)) ∧
  myInterface.fluid (myInterface.ctor fluid h) = Some None ∧
  myInterface.dtor (myInterface.ctor fluid h) = h ∧
  (∀ acc, acc ∈ interfaceAccessors → acc (myInterface.ctor fluid h) = None).
Proof.
  intros Hu.
  assert (Hn : ¬ recognisedInterface (default "off" (configuredInterface fluid))).
  { destruct (configuredInterface fluid) as [w|]; simpl.
    + now apply Hu.
    + intros [[? | ?] | [? | ?]]%recognisedInterface_cases; discriminate. }
  rewrite (interface_ctor_off _ _ Hn).
  split; [intros ops; now apply interface_run_off|].
  split; [reflexivity|]. split; [reflexivity|].
  intros acc [x ->]%elem_of_interfaceAccessors. reflexivity.
Qed.

(** X12 at a fluid solver with no [interface] entry. *)
Lemma interface_off_accessors_dereference_null_witness :
  myInterface.Fa
    (myInterface.ctor (H := sampleInterfaceBodies) (∅, 0) ∅) = None ∧
  myInterface.increment (H := sampleInterfaceBodies)
    (myInterface.ctor (H := sampleInterfaceBodies) (∅, 0) ∅) =
    Some (myInterface.ctor (H := sampleInterfaceBodies) (∅, 0) ∅).
Proof.
  assert (Hu : ∀ w, configuredInterface (H := sampleInterfaceBodies)
                      (∅, 0) = Some w → ¬ recognisedInterface w).
  { intros w Hw. vm_compute in Hw. discriminate. }
  destruct (interface_off_accessors_dereference_null
              (H := sampleInterfaceBodies) (∅, 0) ∅ Hu)
    as (Hrun & _ & _ & Hacc).
  split.
  - apply Hacc. unfold interfaceAccessors. apply elem_of_cons. left. reflexivity.
  - exact (Hrun [myInterface.Increment]).
Defined.

(** X13.  An interface selector, after any sequence of [iterate()],
    [statistics()] and [operator++]: no call has dereferenced a missing
    pointer, the tag and the pointer are those set by the constructor, and
    the destructor gives back the heap from before construction.  When the
    selector is not off, [operator++] does what [iterate()] followed by
    [statistics()] does, and each input-output accessor refers to the object
    the selector owns. *)
Theorem interface_selector_is_stable {Fluid State : Type}
    `{!MYINTERFACE.Bodies Fluid State}
    (fluid : Fluid) (h : gmap positive (MYINTERFACE.t State))
    (ops : list myInterface.operation) :
  ∃ s, myInterface.run ops (myInterface.ctor fluid h) = Some s ∧
       myInterface.self s = myInterface.self (myInterface.ctor fluid h) ∧
       myInterface.dtor s = h ∧
       myInterface.increment s =
         (s1 ← myInterface.iterate s; myInterface.statistics s1) ∧
       (myInterface.tag s ≠ "off" →
        ∃ p o, myInterface._interface (myInterface.self s) = Some p ∧
               myInterface.objects s !! p = Some o ∧
               ∀ acc, acc ∈ interfaceAccessors → ∃ x, acc s = Some (p, x)).
Proof.
  destruct (interface_run_consistent h ops _ (interface_ctor_consistent fluid h))
    as (s & Hrun & Hself & Hc).
  exists s. split; [exact Hrun|]. split; [exact Hself|].
  destruct Hc as [s Hoff Hp Ho | s p o Hon Hp Hfresh Ho].
  - split; [unfold myInterface.dtor; now rewrite interface_tag_off_test|].
    split.
    + unfold myInterface.increment, myInterface.iterate, myInterface.statistics.
      rewrite (interface_tag_off_test _ Hoff). simpl.
      now rewrite (interface_tag_off_test _ Hoff).
    + intros Hon. contradiction.
  - split.
    { unfold myInterface.dtor. rewrite (interface_tag_on_test _ Hon), Hp, Ho.
      rewrite delete_insert_eq. now apply delete_id. }
    split.
    + unfold myInterface.increment, myInterface.iterate, myInterface.statistics.
      rewrite (interface_tag_on_test _ Hon), Hp. simpl.
      destruct (interface_callAt_on h MYINTERFACE.iterate s p o Hon Hp Hfresh Ho)
        as (s1 & H1 & Hself1 & _).
      rewrite H1. simpl.
      assert (Hon1 : myInterface._tag (myInterface.self s1) ≠ "off")
        by (now rewrite Hself1).
      rewrite (interface_tag_on_test _ Hon1), Hself1, Hp. reflexivity.
    + intros _. exists p, o. split; [exact Hp|].
      split; [rewrite Ho; apply lookup_insert_eq|].
      intros acc [x ->]%elem_of_interfaceAccessors. exists x.
      unfold myInterface.access, myInterface.deref. rewrite Hp, Ho. simpl.
      now rewrite lookup_insert_eq.
Qed.

(** X13 at a fluid solver whose dictionary asks for ["Modal"], after two
    steps. *)
Lemma interface_selector_is_stable_witness :
  ∃ s, myInterface.run (H := sampleInterfaceBodies)
         [myInterface.Increment; myInterface.Iterate]
         (myInterface.ctor (H := sampleInterfaceBodies)
            ({["interface" := "Modal"]}, 0) ∅) = Some s ∧
       myInterface.tag s = "Modal" ∧
       myInterface.fluidSolver s = ({["interface" := "Modal"]}, 3) ∧
       ∃ p, myInterface.qdot s = Some (p, MYINTERFACE.qdot).
Proof.
  destruct (interface_selector_is_stable (H := sampleInterfaceBodies)
              ({["interface" := "Modal"]}, 0) ∅
              [myInterface.Increment; myInterface.Iterate])
    as (s & Hrun & Hself & _ & _ & Hacc).
  assert (Htag : myInterface.tag s = "Modal").
  { unfold myInterface.tag. rewrite Hself. vm_compute. reflexivity. }
  exists s. split; [exact Hrun|]. split; [exact Htag|].
  split.
  { vm_compute in Hrun. injection Hrun as <-. reflexivity. }
  destruct Hacc as (p & o & _ & _ & Hall); [rewrite Htag; discriminate|].
  destruct (Hall myInterface.qdot) as [x Hx].
  { unfold interfaceAccessors. rewrite !elem_of_cons. tauto. }
  exists p. rewrite Hx.
  unfold myInterface.qdot, myInterface.access in Hx.
  destruct (myInterface.deref s) as [[p' o']|]; simpl in Hx; [|discriminate].
  injection Hx as _ <-. reflexivity.
Defined.

(** ** The ALE block of the mesh constructor *)

Open Scope list_scope.

Section Assignments.

Context {A : Type}.
Implicit Types (l : list (nat * A)) (acc : list (option A)).

Lemma assign_app l1 l2 acc : assign (l1 ++ l2) acc = assign l2 (assign l1 acc).
Proof. apply foldl_app. Qed.

Lemma assign_length l acc : length (assign l acc) = length acc.
Proof.
  revert acc. induction l as [|[i v] l IH]; intros acc; simpl; [reflexivity|].
  unfold assign in *. simpl. rewrite IH. apply length_insert.
Qed.

Lemma assign_lookup l acc (i : nat) (v : A) :
  (∃ v0, (i, v0) ∈ l) →
  (∀ v', (i, v') ∈ l → v' = v) →
  i < length acc →
  assign l acc !! i = Some (Some v).
Proof.
  induction l as [|[j w] l IH] using rev_ind; intros [v0 Hin] Hfun Hlen.
  - by apply elem_of_nil in Hin.
  - rewrite assign_app. unfold assign at 1. simpl.
    destruct (decide (j = i)) as [-> | Hne].
    + rewrite (Hfun w) by (apply elem_of_app; right; apply list_elem_of_singleton; reflexivity).
      apply list_lookup_insert_eq. now rewrite assign_length.
    + rewrite list_lookup_insert_ne by exact Hne.
      apply elem_of_app in Hin as [Hin | Hin].
      * apply IH; [eauto | | exact Hlen].
        intros v' Hv'. apply Hfun. apply elem_of_app. now left.
      * apply list_elem_of_singleton in Hin. congruence.
Qed.

End Assignments.

Lemma boxPoints_length (d : label * label * label) (min max mid : vector)
    (points : vectorField) :
  length (myMeshALE.boxPoints d min max mid points) =
    length points + 2 * activeDirections d.
Proof.
  unfold myMeshALE.boxPoints, activeDirections. cbn [foldl seq].
  rewrite !filter_cons, filter_nil. cbn [myMeshALE.direction].
  destruct (Z.ltb_spec 0 d.1.1), (Z.ltb_spec 0 d.1.2), (Z.ltb_spec 0 d.2);
    repeat case_decide; try lia; rewrite ?length_app; simpl; lia.
Qed.

Lemma zip_seq_elem_of {B : Type} (l : list B) (i : nat) (x : B) :
  (i, x) ∈ zip (seq 0 (length l)) l ↔ l !! i = Some x.
Proof.
  rewrite list_elem_of_lookup. split.
  - intros [k Hk]. apply lookup_zip_with_Some in Hk as (y & z & [= -> ->] & Hy & Hz).
    apply lookup_seq in Hy as [-> _]. exact Hz.
  - intros Hl. exists i. apply lookup_zip_with_Some. exists i, x.
    split; [reflexivity|]. split; [|exact Hl].
    apply lookup_seq. split; [reflexivity|]. now apply lookup_lt_Some in Hl.
Qed.

Lemma controlPoints_length_from (controls : list word)
    (d : label * label * label) (min max mid : vector) (points : vectorField) :
  length (foldl (λ points c,
                   if String.eqb c "mid" then (points ++ [mid])%list
                   else if String.eqb c "box"
                        then myMeshALE.boxPoints d min max mid points
                        else points)
                points controls) =
    length points
    + length (filter (λ c, c = "mid") controls)
    + 2 * activeDirections d * length (filter (λ c, c = "box") controls).
Proof.
  unfold word in *.
  revert points. induction controls as [|c controls IH]; intros points; simpl.
  - rewrite ?filter_nil. cbn [length]. nia.
  - rewrite IH, !filter_cons.
    destruct (String.eqb_spec c "mid") as [-> | Hmid].
    + rewrite decide_True by reflexivity. rewrite decide_False by discriminate.
      rewrite length_app. cbn [length]. nia.
    + rewrite decide_False by exact Hmid.
      destruct (String.eqb_spec c "box") as [-> | Hbox].
      * rewrite decide_True by reflexivity. rewrite boxPoints_length. cbn [length]. nia.
      * rewrite decide_False by exact Hbox. nia.
Qed.

(** X14.  The number of control points selected by the constructor: one for
    each ["mid"] in the list of controls and, for each ["box"], two for each
    active direction of the mesh; any other word in the list adds nothing. *)
Theorem control_points_count (controls : list word)
    (d : label * label * label) (min max mid : vector) :
  length (myMeshALE.controlPoints controls d min max mid) =
    length (filter (λ c, c = "mid") controls)
    + 2 * activeDirections d * length (filter (λ c, c = "box") controls).
Proof. unfold myMeshALE.controlPoints. now rewrite controlPoints_length_from. Qed.

Lemma index_unique (np ip io ip' io' : nat) :
  ip < np → ip' < np → ip + io * np = ip' + io' * np → ip = ip' ∧ io = io'.
Proof.
  intros Hip Hip' Heq.
  assert (io = io') by nia. subst. split; lia.
Qed.

Section ShapeFunctions.

Context (points : vectorField) (orders : scalarField).
Let np := length points.
Let no := length orders.

Lemma shapeFunctions_inner (ipt : nat * vector) (inner : list (nat * scalar))
    (a1 : list (option vector)) (a2 : list (option scalar)) :
  foldl (λ acc ioo,
           (<[ipt.1 + ioo.1 * np := Some ipt.2]> acc.1,
            <[ipt.1 + ioo.1 * np := Some ioo.2]> acc.2))
        (a1, a2) inner =
  (assign (ppAssignment points <$> ((λ ioo, (ipt, ioo)) <$> inner)) a1,
   assign (ooAssignment points <$> ((λ ioo, (ipt, ioo)) <$> inner)) a2).
Proof.
  revert a1 a2. induction inner as [|ioo inner IHi]; intros a1 a2; [reflexivity|].
  simpl. rewrite IHi. reflexivity.
Qed.

Lemma shapeFunctions_assign :
  myMeshALE.shapeFunctions points orders =
    (assign (ppAssignment points <$> shapeAssignments points orders) (replicate (no * np) None),
     assign (ooAssignment points <$> shapeAssignments points orders) (replicate (no * np) None)).
Proof.
  unfold myMeshALE.shapeFunctions, shapeAssignments. fold np no.
  generalize (replicate (no * np) (@None vector)).
  generalize (replicate (no * np) (@None scalar)).
  generalize (zip (seq 0 np) points).
  intros outer. induction outer as [|ipt outer IH]; intros a2 a1; [reflexivity|].
  simpl. rewrite shapeFunctions_inner, IH.
  rewrite !fmap_app, !assign_app. reflexivity.
Qed.

Lemma shapeAssignments_elem_of (ip io : nat) (pt : vector) (o : scalar) :
  ((ip, pt), (io, o)) ∈ shapeAssignments points orders ↔
  points !! ip = Some pt ∧ orders !! io = Some o.
Proof.
  unfold shapeAssignments. rewrite list_elem_of_bind. split.
  - intros ([ip' pt'] & Hin & Houter).
    apply list_elem_of_fmap in Hin as ([io' o'] & [= -> -> -> ->] & Hinner).
    split; [now apply zip_seq_elem_of | now apply zip_seq_elem_of].
  - intros [Hp Ho]. exists (ip, pt). split.
    + apply list_elem_of_fmap. exists (io, o). split; [reflexivity|].
      now apply zip_seq_elem_of.
    + now apply zip_seq_elem_of.
Qed.

End ShapeFunctions.

(** X15.  The lists [_pp] and [_oo] after the two nested loops: both have
    [no*np] cells, every cell has been assigned, and cell [k] holds control
    point [k mod np] and order [k / np] (the control points repeated once per
    order). *)
Theorem shape_functions_layout (points : vectorField) (orders : scalarField)
    (k : nat) :
  length (myMeshALE.shapeFunctions points orders).1 =
    length orders * length points ∧
  length (myMeshALE.shapeFunctions points orders).2 =
    length orders * length points ∧
  (k < length orders * length points →
   ∃ pt o, points !! (k mod length points) = Some pt ∧
           orders !! (k / length points) = Some o ∧
           (myMeshALE.shapeFunctions points orders).1 !! k = Some (Some pt) ∧
           (myMeshALE.shapeFunctions points orders).2 !! k = Some (Some o)).
Proof.
  rewrite shapeFunctions_assign. cbn [fst snd].
  rewrite !assign_length, !length_replicate.
  split; [reflexivity|]. split; [reflexivity|]. intros Hk.
  set (np := length points) in *. set (no := length orders) in *.
  assert (Hnp : 0 < np) by (destruct np; lia).
  assert (Hmod : k mod np < np) by (apply Nat.mod_upper_bound; lia).
  assert (Hdiv : k / np < no) by (apply Nat.Div0.div_lt_upper_bound; lia).
  destruct (lookup_lt_is_Some_2 points (k mod np) Hmod) as [pt Hpt].
  destruct (lookup_lt_is_Some_2 orders (k / np) Hdiv) as [o Ho].
  assert (Hk' : k = k mod np + k / np * np).
  { rewrite (Nat.div_mod_eq k np) at 1. lia. }
  assert (Hin : ((k mod np, pt), (k / np, o)) ∈ shapeAssignments points orders)
    by (now apply shapeAssignments_elem_of).
  assert (Hall : ∀ a, a ∈ shapeAssignments points orders →
                 a.1.1 + a.2.1 * np = k → a.1.2 = pt ∧ a.2.2 = o).
  { intros [[ip pt'] [io o']] Ha Hidx. simpl in *.
    apply shapeAssignments_elem_of in Ha as [Hp' Ho'].
    assert (Hip : ip < np) by (now apply lookup_lt_Some in Hp').
    destruct (index_unique np ip io (k mod np) (k / np) Hip Hmod) as [-> ->];
      [lia|].
    unfold vectorField, scalarField in *. split; congruence. }
  exists pt, o. split; [exact Hpt|]. split; [exact Ho|]. split.
  - apply assign_lookup.
    + exists pt. apply list_elem_of_fmap. eexists. split; [|exact Hin].
      unfold ppAssignment. simpl. f_equal. exact Hk'.
    + intros v' Hv'. apply list_elem_of_fmap in Hv' as (a & [= Hidx ->] & Ha).
      now apply (Hall a Ha).
    + now rewrite length_replicate.
  - apply assign_lookup.
    + exists o. apply list_elem_of_fmap. eexists. split; [|exact Hin].
      unfold ooAssignment. simpl. f_equal. exact Hk'.
    + intros v' Hv'. apply list_elem_of_fmap in Hv' as (a & [= Hidx ->] & Ha).
      now apply (Hall a Ha).
    + now rewrite length_replicate.
Qed.

(** X15 with two control points and three orders: cell 3 holds control
    point 1 and order 1. *)
Lemma shape_functions_layout_witness :
  (myMeshALE.shapeFunctions [(0, 0, 0); (1, 0, 0)]%float [1; 2; 3]%float).1 !! 3 =
    Some (Some (1, 0, 0)%float) ∧
  (myMeshALE.shapeFunctions [(0, 0, 0); (1, 0, 0)]%float [1; 2; 3]%float).2 !! 3 =
    Some (Some 2%float).
Proof.
  destruct (shape_functions_layout [(0, 0, 0); (1, 0, 0)]%float [1; 2; 3]%float 3)
    as (_ & _ & H).
  destruct H as (pt & o & Hpt & Ho & Hpp & Hoo); [simpl; lia|].
  vm_compute in Hpt. vm_compute in Ho.
  injection Hpt as <-. injection Ho as <-.
  split; [exact Hpp | exact Hoo].
Defined.


(** *** Rows of the inverse-distance-weighting matrix *)

Lemma keptFrom_cons (j0 : nat) (x : scalar) (ROW : list scalar) (s : scalar) :
  keptFrom j0 (x :: ROW) s =
    if (s <? myMeshALE.mag x)%float
    then (j0, x) :: keptFrom (S j0) ROW s
    else keptFrom (S j0) ROW s.
Proof.
  unfold keptFrom. cbn [length seq zip zip_with]. rewrite filter_cons.
  cbn [snd]. destruct (s <? myMeshALE.mag x)%float.
  - now rewrite decide_True.
  - now rewrite decide_False.
Qed.

Lemma countAbove_from (j0 : nat) (ROW : list scalar) (s : scalar) (Nc : nat) :
  myMeshALE.countAbove ROW s Nc = Nc + length (keptFrom j0 ROW s).
Proof.
  unfold myMeshALE.countAbove. revert j0 Nc.
  induction ROW as [|x ROW IH]; intros j0 Nc; simpl.
  - unfold keptFrom. simpl. lia.
  - rewrite keptFrom_cons, (IH (S j0)).
    destruct (s <? myMeshALE.mag x)%float; simpl; lia.
Qed.

Lemma compress_from (ROW : list scalar) (s : scalar) (j0 m : nat)
    (vs : list scalar) (cs : list nat) :
  length cs = length vs →
  foldl (λ acc jx,
           if (s <? myMeshALE.mag jx.2)%float
           then (<[acc.2 := jx.2]> acc.1.1, <[acc.2 := jx.1]> acc.1.2, acc.2 + 1)
           else acc)
        (vs ++ replicate (length (keptFrom j0 ROW s) + m) 0%float,
         cs ++ replicate (length (keptFrom j0 ROW s) + m) 0,
         length vs)
        (zip (seq j0 (length ROW)) ROW) =
  (vs ++ (keptFrom j0 ROW s).*2 ++ replicate m 0%float,
   cs ++ (keptFrom j0 ROW s).*1 ++ replicate m 0,
   length vs + length (keptFrom j0 ROW s)).
Proof.
  revert j0 vs cs. induction ROW as [|x ROW IH]; intros j0 vs cs Hlen.
  - unfold keptFrom. simpl. f_equal. lia.
  - cbn [length seq zip zip_with foldl]. rewrite keptFrom_cons. cbn [snd fst].
    destruct (s <? myMeshALE.mag x)%float.
    + cbn [length plus replicate fmap list_fmap fst snd].
      rewrite (insert_app_r_alt vs) by lia.
      rewrite (insert_app_r_alt cs) by lia.
      rewrite Hlen, Nat.sub_diag. cbn [insert list_insert].
      replace (length vs + 1) with (length (vs ++ [x])) by (rewrite length_app; simpl; lia).
      rewrite (cons_middle x vs), (cons_middle j0 cs), !app_assoc.
      rewrite IH by (rewrite !length_app; simpl; lia).
      rewrite length_app. simpl. rewrite <- !app_assoc. simpl.
      f_equal. lia.
    + apply IH. exact Hlen.
Qed.

Lemma compress_kept (ROW : list scalar) (s : scalar) :
  myMeshALE.compress ROW (length (kept ROW s)) s =
    ((kept ROW s).*2, (kept ROW s).*1, length (kept ROW s)).
Proof.
  unfold myMeshALE.compress, kept.
  pose proof (compress_from ROW s 0 0 [] [] eq_refl) as H.
  rewrite Nat.add_0_r in H. cbn [app length plus] in H.
  rewrite !app_nil_r in H. exact H.
Qed.

Lemma halve_spec (fuel : nat) (ROW : list scalar) (Nc0 : nat) (s0 : scalar)
    (Nc : nat) (s : scalar) :
  (Nc0 ≠ 0 → Nc0 = length (kept ROW s0)) →
  myMeshALE.halve fuel ROW Nc0 s0 = Some (Nc, s) →
  Nc ≠ 0 ∧ Nc = length (kept ROW s).
Proof.
  revert Nc0 s0. induction fuel as [|fuel IH]; intros Nc0 s0 H0 Hh; [discriminate|].
  simpl in Hh. destruct (Nat.eqb_spec Nc0 0) as [-> | Hne].
  - apply IH in Hh; [exact Hh|]. intros _.
    now rewrite (countAbove_from 0).
  - injection Hh as <- <-. auto.
Qed.

Lemma kept_elem_of (ROW : list scalar) (s : scalar) (j : nat) (x : scalar) :
  (j, x) ∈ kept ROW s ↔
  ROW !! j = Some x ∧ (s <? myMeshALE.mag x)%float = true.
Proof.
  unfold kept, keptFrom. rewrite list_elem_of_filter, zip_seq_elem_of. simpl. tauto.
Qed.

Lemma normalise_nonempty (l : list scalar) :
  l ≠ [] →
  myMeshALE.normalise l = (λ x, (x * (1 / myMeshALE.sum l))%float) <$> l.
Proof. unfold myMeshALE.normalise. destruct l; [done|reflexivity]. Qed.

Lemma normalise_length (l : list scalar) :
  length (myMeshALE.normalise l) = length l.
Proof.
  unfold myMeshALE.normalise. destruct (Nat.ltb 0 (length l)); [|reflexivity].
  apply length_fmap.
Qed.

(** X16.  A row of the matrix in sparse format, when the search for the
    threshold ends.  The threshold [s] found keeps at least one entry; the
    columns stored are exactly the columns of the full row whose entry is
    above [s] in magnitude, in increasing order of column, and the weights
    stored are those entries, in the same order, each multiplied by one over
    their sum.  So the two lists have the same length, every stored column
    points to the entry its weight came from, and no entry above the
    threshold is left out. *)
Theorem sparse_row_format (fuel : nat) (ROW : list scalar) (_smallest : scalar)
    (IDWi : list scalar) (COLi : list nat) :
  myMeshALE.sparseRow fuel ROW _smallest = Some (IDWi, COLi) →
  ∃ s, kept ROW s ≠ [] ∧
       COLi = (kept ROW s).*1 ∧
       IDWi = myMeshALE.normalise (kept ROW s).*2 ∧
       length IDWi = length COLi ∧
       (∀ i j, COLi !! i = Some j →
          ∃ x, ROW !! j = Some x ∧
               (s <? myMeshALE.mag x)%float = true ∧
               IDWi !! i =
                 Some (x * (1 / myMeshALE.sum (kept ROW s).*2))%float) ∧
       (∀ j x, ROW !! j = Some x →
               (s <? myMeshALE.mag x)%float = true → j ∈ COLi).
Proof.
  unfold myMeshALE.sparseRow. intros Hrow.
  destruct (myMeshALE.halve fuel ROW 0 (2 * _smallest)%float) as [[Nc s]|] eqn:Hh;
    [|discriminate].
  apply halve_spec in Hh as [Hne ->]; [|done].
  simpl in Hrow. rewrite compress_kept in Hrow. simpl in Hrow.
  injection Hrow as <- <-.
  assert (Hk : kept ROW s ≠ []) by (now destruct (kept ROW s)).
  assert (Hk2 : (kept ROW s).*2 ≠ []) by (now destruct (kept ROW s)).
  exists s. split; [exact Hk|]. split; [reflexivity|]. split; [reflexivity|].
  split; [now rewrite normalise_length, !length_fmap|].
  split.
  - intros i j Hj.
    apply list_lookup_fmap_Some in Hj as ([j' x] & -> & Hjx).
    exists x. cbn [fst snd].
    pose proof (list_elem_of_lookup_2 _ _ _ Hjx) as Hin.
    apply kept_elem_of in Hin as [Hrow Habove].
    split; [exact Hrow|]. split; [exact Habove|].
    rewrite normalise_nonempty by exact Hk2.
    rewrite !list_lookup_fmap, Hjx. reflexivity.
  - intros j x Hrow Habove.
    apply list_elem_of_fmap. exists (j, x). split; [reflexivity|].
    now apply kept_elem_of.
Qed.

(** X16 on a row with two entries above the threshold. *)
Lemma sparse_row_format_witness :
  ∃ IDWi COLi,
    myMeshALE.sparseRow 2 [0.5; 0; 0.25]%float 1e-3 = Some (IDWi, COLi) ∧
    length IDWi = length COLi.
Proof.
  destruct (myMeshALE.sparseRow 2 [0.5; 0; 0.25]%float 1e-3)
    as [[IDWi COLi]|] eqn:E; [|vm_compute in E; discriminate].
  exists IDWi, COLi. split; [reflexivity|].
  destruct (sparse_row_format _ _ _ _ _ E) as (s & _ & _ & _ & Hlen & _).
  exact Hlen.
Defined.


Lemma ltb_mag_nan (s x : scalar) :
  is_nan x = true → (s <? myMeshALE.mag x)%float = false.
Proof.
  intros Hx%nan_Prim2SF. unfold myMeshALE.mag.
  rewrite FloatAxioms.ltb_spec, FloatAxioms.abs_spec, Hx. unfold SFltb. simpl.
  now destruct (Prim2SF s).
Qed.

Lemma kept_all_nan (ROW : list scalar) (s : scalar) :
  Forall (λ x, is_nan x = true) ROW → kept ROW s = [].
Proof.
  intros Hall. unfold kept. generalize 0.
  induction Hall as [|x ROW Hx _ IH]; intros j0; [reflexivity|].
  rewrite keptFrom_cons, (ltb_mag_nan _ _ Hx). apply IH.
Qed.

(** X17.  When the full row has no entry that is a number (it is empty, as
    it is when there is no reference point at all, or holds only NaN), no
    halving of the threshold ever keeps an entry: the loop that searches the
    threshold does not end, whatever the bound given to it. *)
Theorem sparse_row_diverges (fuel : nat) (ROW : list scalar) (_smallest : scalar) :
  Forall (λ x, is_nan x = true) ROW →
  myMeshALE.sparseRow fuel ROW _smallest = None.
Proof.
  intros Hall. unfold myMeshALE.sparseRow.
  assert (Hh : ∀ s, myMeshALE.halve fuel ROW 0 s = None).
  { induction fuel as [|fuel IH]; intros s; [reflexivity|].
    simpl. rewrite (countAbove_from 0). fold (kept ROW (0.5 * s)%float).
    rewrite (kept_all_nan _ _ Hall). apply IH. }
  now rewrite Hh.
Qed.

(** X17 on a row that holds one NaN. *)
Lemma sparse_row_diverges_witness :
  myMeshALE.sparseRow 1000 [nan] 1e-3 = None.
Proof.
  apply (sparse_row_diverges 1000 [nan] 1e-3).
  constructor; [reflexivity | constructor].
Defined.


(** X18.  When some entry of the full row is above half of twice the
    configured smallest weight, the search ends at its first pass with that
    threshold, and the row stored is the same for every bound of at least two
    evaluations of the loop condition. *)
Theorem sparse_row_first_pass (fuel : nat) (ROW : list scalar)
    (_smallest : scalar) :
  Exists (λ x, (0.5 * (2 * _smallest) <? myMeshALE.mag x)%float = true) ROW →
  (2 ≤ fuel)%nat →
  myMeshALE.sparseRow fuel ROW _smallest =
    Some (myMeshALE.normalise (kept ROW (0.5 * (2 * _smallest))%float).*2,
          (kept ROW (0.5 * (2 * _smallest))%float).*1).
Proof.
  intros Hex Hfuel.
  assert (Hk : length (kept ROW (0.5 * (2 * _smallest))%float) ≠ 0).
  { apply Exists_exists in Hex as (x & Hin & Hx).
    apply list_elem_of_lookup in Hin as [j Hj].
    assert (Hin : (j, x) ∈ kept ROW (0.5 * (2 * _smallest))%float)
      by (now apply kept_elem_of).
    destruct (kept ROW (0.5 * (2 * _smallest))%float); [|discriminate].
    by apply elem_of_nil in Hin. }
  destruct fuel as [|[|fuel]]; try lia.
  unfold myMeshALE.sparseRow. cbn [myMeshALE.halve Nat.eqb].
  rewrite (countAbove_from 0). fold (kept ROW (0.5 * (2 * _smallest))%float).
  cbn [plus].
  destruct (Nat.eqb_spec (length (kept ROW (0.5 * (2 * _smallest))%float)) 0)
    as [He|_]; [contradiction|].
  simpl. now rewrite compress_kept.
Qed.

(** X18 on a row with two entries above the threshold: columns 0 and 2 are
    stored. *)
Lemma sparse_row_first_pass_witness :
  snd <$> myMeshALE.sparseRow 5 [0.5; 0; 0.25]%float 1e-3 = Some [0; 2].
Proof.
  rewrite (sparse_row_first_pass 5 [0.5; 0; 0.25]%float 1e-3).
  - vm_compute. reflexivity.
  - apply Exists_cons_hd. vm_compute. reflexivity.
  - lia.
Defined.


(** *** Offsets of the reference points across processes *)

Lemma reduce_indicator (l : list nat) (c j : nat) :
  myMeshALE.reduce (imap (λ p Nr, if decide (c + p = j) then Nr else 0) l) =
    if decide (c ≤ j)%nat then default 0 (l !! (j - c)) else 0.
Proof.
  unfold myMeshALE.reduce. revert c.
  induction l as [|x l IH]; intros c.
  - simpl. now case_decide.
  - rewrite imap_cons. cbn [foldr].
    rewrite (imap_ext _ (λ p Nr, if decide (S c + p = j) then Nr else 0))
      by (intros i z _; simpl; repeat case_decide; lia).
    rewrite IH. repeat case_decide; try lia.
    all: try (replace (j - c) with 0 by lia; simpl; lia).
    all: replace (j - c) with (S (j - S c)) by lia; reflexivity.
Qed.

Lemma localOffset_lookup (nProcs p Nr j : nat) :
  (p < nProcs)%nat →
  myMeshALE.localOffset nProcs p Nr !!! j = if decide (S p = j) then Nr else 0.
Proof.
  intros Hp. unfold myMeshALE.localOffset. case_decide as Hj.
  - subst j. apply list_lookup_total_insert_eq. rewrite length_replicate. lia.
  - rewrite list_lookup_total_insert_ne by exact Hj.
    rewrite list_lookup_total_alt.
    destruct (replicate (S nProcs) 0 !! j) as [z|] eqn:E; [|reflexivity].
    now apply lookup_replicate_1 in E as [-> _].
Qed.

Lemma foldl_insert_length {A : Type} (f : list A → nat → A) (a0 : list A)
    (js : list nat) :
  length (foldl (λ a j, <[j := f a j]> a) a0 js) = length a0.
Proof.
  revert a0. induction js as [|j js IH]; intros a0; simpl; [reflexivity|].
  rewrite IH. apply length_insert.
Qed.

Lemma foldl_insert_seq_lookup {A : Type} (g : nat → A) (a0 : list A)
    (i0 m k : nat) :
  (i0 + m ≤ length a0)%nat →
  foldl (λ a j, <[j := g j]> a) a0 (seq i0 m) !! k =
    if decide (i0 ≤ k < i0 + m)%nat then Some (g k) else a0 !! k.
Proof.
  induction m as [|m IH]; intros Hlen.
  - simpl. now rewrite decide_False by lia.
  - rewrite seq_S, foldl_app. cbn [foldl].
    destruct (decide (k = i0 + m)) as [-> | Hne].
    + rewrite list_lookup_insert_eq
        by (rewrite (foldl_insert_length (λ _ j, g j)); lia).
      now rewrite decide_True by lia.
    + rewrite list_lookup_insert_ne by lia. rewrite IH by lia.
      repeat case_decide; try lia; reflexivity.
Qed.

Lemma reduced_eq (Nrs : list nat) (myProcNo : nat) :
  (myProcNo < length Nrs)%nat →
  myMeshALE.reduced Nrs myProcNo = 0 :: Nrs.
Proof.
  intros Hme. unfold myMeshALE.reduced. cbv zeta.
  remember (length Nrs) as n eqn:Hn.
  assert (Hlen0 : length (myMeshALE.localOffset n myProcNo (Nrs !!! myProcNo)) = S n).
  { unfold myMeshALE.localOffset. now rewrite length_insert, length_replicate. }
  rewrite Hlen0. replace (S n - 1) with n by lia.
  apply list_eq. intros k.
  rewrite foldl_insert_seq_lookup by (rewrite Hlen0; lia).
  case_decide as Hk.
  - rewrite (imap_ext _ (λ p Nr, if decide (0 + S p = S (k - 1)) then Nr else 0)).
    + replace (imap (λ p Nr, if decide (0 + S p = S (k - 1)) then Nr else 0) Nrs)
        with (imap (λ p Nr, if decide (0 + p = k - 1) then Nr else 0) Nrs)
        by (apply imap_ext; intros; simpl; repeat case_decide; lia).
      rewrite reduce_indicator. rewrite decide_True by lia.
      rewrite Nat.sub_0_r. destruct k as [|k]; [lia|]. simpl.
      rewrite Nat.sub_0_r.
      assert (Hkn : (k < length Nrs)%nat) by lia.
      destruct (lookup_lt_is_Some_2 Nrs k Hkn) as [z Hz].
      now rewrite Hz.
    + intros p z Hp. simpl. apply lookup_lt_Some in Hp.
      rewrite localOffset_lookup by lia.
      repeat case_decide; try lia; reflexivity.
  - destruct k as [|k].
    + unfold myMeshALE.localOffset. simpl. reflexivity.
    + rewrite lookup_ge_None_2 by (rewrite Hlen0; lia).
      symmetry. apply lookup_ge_None_2. simpl. lia.
Qed.

Lemma accumulated_steps (l : list nat) (m k : nat) :
  (m < length l)%nat →
  foldl (λ offset j, <[j := offset !!! j + offset !!! (j - 1)]> offset)
        l (seq 1 m) !! k =
    if decide (k ≤ m)%nat
    then (if decide (k < length l)%nat then Some (sum_list (take (S k) l)) else None)
    else l !! k.
Proof.
  revert k. induction m as [|m IH]; intros k Hlen.
  - simpl. case_decide as Hk; [|reflexivity].
    assert (k = 0) as -> by lia. rewrite decide_True by lia.
    destruct l as [|x l]; [simpl in Hlen; lia|]. simpl. f_equal. lia.
  - rewrite seq_S, foldl_app. cbn [foldl].
    set (a := foldl _ l (seq 1 m)) in *.
    assert (Hla : length a = length l) by (apply foldl_insert_length).
    assert (Ham : a !!! m = sum_list (take (S m) l)).
    { apply list_lookup_total_correct. rewrite IH by lia.
      now rewrite !decide_True by lia. }
    assert (HaS : a !! (S m) = l !! (S m)).
    { rewrite IH by lia. now rewrite decide_False by lia. }
    destruct (lookup_lt_is_Some_2 l (S m) Hlen) as [x Hx].
    replace (1 + m) with (S m) by lia. replace (S m - 1) with m by lia.
    destruct (decide (k = S m)) as [-> | Hne].
    + rewrite list_lookup_insert_eq by lia.
      rewrite !decide_True by lia. f_equal.
      rewrite (list_lookup_total_correct a (S m) x) by congruence.
      rewrite Ham. rewrite (take_S_r l (S m) x Hx).
      rewrite sum_list_with_app. simpl. lia.
    + rewrite list_lookup_insert_ne by lia. rewrite IH by lia.
      repeat case_decide; try lia; reflexivity.
Qed.

(** *** The reference points of a process *)

Lemma count_run {A : Type} (cs : list A) (Nr : nat) :
  foldl (λ Nr _, Nr + 1) Nr cs = Nr + length cs.
Proof.
  revert Nr. induction cs as [|c cs IH]; intros Nr; simpl; [lia|].
  rewrite IH. lia.
Qed.

Lemma countReference_from (patches : list (word * vectorField)) (Nr : nat) :
  foldl (λ Nr patch,
           if String.eqb patch.1 "fixedValue"
           then foldl (λ Nr _, Nr + 1) Nr patch.2
           else Nr)
        Nr patches = Nr + length (fixedCentres patches).
Proof.
  revert Nr. induction patches as [|[ty cs] patches IH]; intros Nr.
  - simpl. lia.
  - cbn [foldl]. rewrite IH. unfold fixedCentres. cbn [mbind list_bind].
    fold (mbind (M := list) (λ patch : word * vectorField,
            if String.eqb patch.1 "fixedValue" then patch.2 else [])).
    rewrite length_app. cbn [fst snd].
    destruct (String.eqb ty "fixedValue").
    + rewrite count_run. lia.
    + simpl. lia.
Qed.

Lemma countReference_length (patches : list (word * vectorField)) :
  myMeshALE.countReference patches = length (fixedCentres patches).
Proof. unfold myMeshALE.countReference. now rewrite countReference_from. Qed.

Lemma fill_run (cs pre mid post : vectorField) :
  length mid = length cs →
  foldl (λ acc c, (<[acc.2 := c]> acc.1, acc.2 + 1))
        (pre ++ mid ++ post, length pre) cs =
    (pre ++ cs ++ post, length pre + length cs).
Proof.
  revert pre mid. induction cs as [|c cs IH]; intros pre mid Hlen.
  - destruct mid; [|discriminate]. simpl. f_equal. lia.
  - destruct mid as [|m mid]; [discriminate|]. injection Hlen as Hlen.
    cbn [foldl fst snd].
    rewrite insert_app_r_alt by lia. rewrite Nat.sub_diag. cbn [insert list_insert app].
    replace (pre ++ c :: mid ++ post) with ((pre ++ [c]) ++ mid ++ post)
      by now rewrite <- app_assoc.
    replace (length pre + 1) with (length (pre ++ [c]))
      by (rewrite length_app; reflexivity).
    rewrite (IH _ _ Hlen). rewrite length_app. simpl.
    rewrite <- app_assoc. f_equal. lia.
Qed.

Lemma fillReference_from (patches : list (word * vectorField))
    (pre mid post : vectorField) :
  length mid = length (fixedCentres patches) →
  foldl (λ acc patch,
           if String.eqb patch.1 "fixedValue"
           then foldl (λ acc c, (<[acc.2 := c]> acc.1, acc.2 + 1)) acc patch.2
           else acc)
        (pre ++ mid ++ post, length pre) patches =
    (pre ++ fixedCentres patches ++ post,
     length pre + length (fixedCentres patches)).
Proof.
  revert pre mid. induction patches as [|[ty cs] patches IH]; intros pre mid Hlen.
  - destruct mid; [|discriminate]. simpl. f_equal. lia.
  - cbn [foldl fst snd]. unfold fixedCentres in *. cbn [mbind list_bind] in *.
    fold (mbind (M := list) (λ patch : word * vectorField,
            if String.eqb patch.1 "fixedValue" then patch.2 else [])) in *.
    cbn [fst snd] in *.
    destruct (String.eqb ty "fixedValue").
    + rewrite length_app in Hlen.
      rewrite <- (take_drop (length cs) mid), <- (app_assoc _ _ post).
      rewrite fill_run by (rewrite length_take; lia).
      replace (length pre + length cs) with (length (pre ++ cs))
        by now rewrite length_app.
      rewrite (app_assoc pre cs).
      rewrite IH by (rewrite length_drop; lia).
      rewrite !length_app, <- !app_assoc. f_equal. lia.
    + simpl in *. now apply IH.
Qed.

Lemma offsets_lookup (Nrs : list nat) (myProcNo j : nat) :
  (myProcNo < length Nrs)%nat → (j ≤ length Nrs)%nat →
  myMeshALE.offsets Nrs myProcNo !! j = Some (sum_list (take j Nrs)).
Proof.
  intros Hme Hj. unfold myMeshALE.offsets, myMeshALE.accumulated.
  rewrite (reduced_eq _ _ Hme). cbn [length]. rewrite Nat.sub_succ, Nat.sub_0_r.
  rewrite accumulated_steps by (simpl; lia).
  now rewrite !decide_True by (simpl; lia).
Qed.

Lemma sum_list_split (Nrs : list nat) (i x : nat) :
  Nrs !! i = Some x →
  sum_list Nrs = sum_list (take i Nrs) + x + sum_list (drop (S i) Nrs).
Proof.
  intros Hx. rewrite <- (take_drop_middle Nrs i x Hx) at 1.
  rewrite sum_list_with_app. simpl. lia.
Qed.

(** X19.  The offsets of the reference points, on any process of a run in
    which process [p] has [Nrs[p]] of them.  There is one offset more than
    there are processes; offset [j] is the number of reference points of the
    processes before [j], so the offsets are the same on every process, the
    first is 0, the last is the total, and the slot of a process ends where
    the slot of the next one starts. *)
Theorem offsets_are_prefix_sums (Nrs : list nat) (myProcNo j : nat) :
  (myProcNo < length Nrs)%nat →
  length (myMeshALE.offsets Nrs myProcNo) = S (length Nrs) ∧
  ((j ≤ length Nrs)%nat →
   myMeshALE.offsets Nrs myProcNo !! j = Some (sum_list (take j Nrs))) ∧
  myMeshALE.offsets Nrs myProcNo !!! myProcNo + Nrs !!! myProcNo =
    myMeshALE.offsets Nrs myProcNo !!! S myProcNo.
Proof.
  intros Hme. split; [|split].
  - unfold myMeshALE.offsets, myMeshALE.accumulated.
    rewrite foldl_insert_length, (reduced_eq _ _ Hme). reflexivity.
  - now apply offsets_lookup.
  - assert (H0 := offsets_lookup Nrs myProcNo myProcNo Hme ltac:(lia)).
    assert (H1 := offsets_lookup Nrs myProcNo (S myProcNo) Hme ltac:(lia)).
    apply list_lookup_total_correct in H0, H1. rewrite H0, H1.
    destruct (lookup_lt_is_Some_2 Nrs myProcNo Hme) as [x Hx].
    rewrite (list_lookup_total_correct _ _ _ Hx), (take_S_r _ _ _ Hx).
    rewrite sum_list_with_app. simpl. lia.
Qed.

(** X19 on three processes with 3, 0 and 2 reference points, seen from
    process 1. *)
Lemma offsets_are_prefix_sums_witness :
  length (myMeshALE.offsets [3; 0; 2] 1) = 4 ∧
  myMeshALE.offsets [3; 0; 2] 1 !! 3 = Some 5.
Proof.
  destruct (offsets_are_prefix_sums [3; 0; 2] 1 3) as (Hlen & Hj & _);
    [simpl; lia|].
  split; [exact Hlen|]. apply Hj. simpl. lia.
Defined.


(** X20.  The list of reference points a process holds before the
    reduction.  With the offsets of the run, every write is inside the list;
    the process writes the face centres of its ["fixedValue"] patches, in
    order, in its own slot, between its offset and the one of the next
    process, and leaves zero vectors in the slots of the others. *)
Theorem reference_points_slot (Nrs : list nat) (myProcNo : nat)
    (patches : list (word * vectorField)) :
  Nrs !! myProcNo = Some (myMeshALE.countReference patches) →
  let offset := myMeshALE.offsets Nrs myProcNo in
  myMeshALE.fillReference patches (offset !!! length Nrs) (offset !!! myProcNo) =
    (replicate (sum_list (take myProcNo Nrs)) (0, 0, 0)%float
       ++ fixedCentres patches
       ++ replicate (sum_list (drop (S myProcNo) Nrs)) (0, 0, 0)%float,
     offset !!! S myProcNo).
Proof.
  intros Hx offset. subst offset.
  assert (Hme : (myProcNo < length Nrs)%nat) by (eapply lookup_lt_Some; eauto).
  assert (H0 := offsets_lookup Nrs myProcNo myProcNo Hme ltac:(lia)).
  assert (H1 := offsets_lookup Nrs myProcNo (S myProcNo) Hme ltac:(lia)).
  assert (Hn := offsets_lookup Nrs myProcNo (length Nrs) Hme ltac:(lia)).
  apply list_lookup_total_correct in H0, H1, Hn. rewrite H0, H1, Hn.
  rewrite firstn_all, (take_S_r _ _ _ Hx), sum_list_with_app.
  rewrite (sum_list_split Nrs myProcNo _ Hx).
  rewrite countReference_length in *.
  set (a := sum_list (take myProcNo Nrs)).
  set (b := sum_list (drop (S myProcNo) Nrs)).
  unfold myMeshALE.fillReference.
  replace (replicate (a + length (fixedCentres patches) + b) (0, 0, 0)%float)
    with (replicate a (0, 0, 0)%float
            ++ replicate (length (fixedCentres patches)) (0, 0, 0)%float
            ++ replicate b (0, 0, 0)%float)
    by (rewrite <- !replicate_add; f_equal; lia).
  replace a with (length (replicate a (0, 0, 0)%float)) at 2
    by apply length_replicate.
  rewrite fillReference_from by apply length_replicate.
  rewrite length_replicate. f_equal. simpl. lia.
Qed.

(** X20 on the second of two processes, with one patch of type
    ["fixedValue"] of two faces and one of another type. *)
Lemma reference_points_slot_witness :
  (myMeshALE.fillReference
     [("fixedValue", [(1, 0, 0); (2, 0, 0)]%float); ("slip", [(9, 9, 9)]%float)]
     (myMeshALE.offsets [1; 2] 1 !!! 2) (myMeshALE.offsets [1; 2] 1 !!! 1)).1 =
    [(0, 0, 0); (1, 0, 0); (2, 0, 0)]%float.
Proof.
  assert (H := reference_points_slot [1; 2] 1
                 [("fixedValue", [(1, 0, 0); (2, 0, 0)]%float);
                  ("slip", [(9, 9, 9)]%float)] eq_refl).
  exact (f_equal fst H).
Defined.


(** *** Fixed regions *)

Lemma inner_inactive (cellToRegion : list label) (c : nat) (fixed : list label) :
  foldl (λ active f, if (cellToRegion !!! c =? f)%Z then false else active)
        false fixed = false.
Proof. induction fixed as [|f fixed IH]; simpl; [reflexivity|]. now destruct (_ =? _)%Z. Qed.

Lemma inner_active (cellToRegion : list label) (c : nat) (fixed : list label) :
  foldl (λ active f, if (cellToRegion !!! c =? f)%Z then false else active)
        true fixed = true ↔ cellToRegion !!! c ∉ fixed.
Proof.
  induction fixed as [|f fixed IH]; simpl.
  - split; [intros _; apply not_elem_of_nil | reflexivity].
  - rewrite not_elem_of_cons. destruct (Z.eqb_spec (cellToRegion !!! c) f) as [E|E].
    + rewrite inner_inactive. split; [discriminate | intros [? _]; contradiction].
    + rewrite IH. tauto.
Qed.

Lemma outer_inactive (cellToRegion fixed : list label) (tmp : list nat) :
  foldl (λ active c,
           foldl (λ active f, if (cellToRegion !!! c =? f)%Z then false else active)
                 active fixed)
        false tmp = false.
Proof.
  induction tmp as [|c tmp IH]; simpl; [reflexivity|]. now rewrite inner_inactive.
Qed.

Lemma isActive_spec (cellToRegion fixed : list label) (tmp : list nat) :
  myMeshALE.isActive cellToRegion fixed tmp = true ↔
  ∀ c, c ∈ tmp → cellToRegion !!! c ∉ fixed.
Proof.
  unfold myMeshALE.isActive. induction tmp as [|c tmp IH]; simpl.
  - split; [intros _ c Hc; now apply elem_of_nil in Hc | reflexivity].
  - destruct (foldl (λ active f, if (cellToRegion !!! c =? f)%Z then false else active)
                    true fixed) eqn:E.
    + apply inner_active in E. rewrite IH. split.
      * intros H c' [-> | Hc']%elem_of_cons; auto.
      * intros H c' Hc'. apply H. now right.
    + rewrite outer_inactive. split; [discriminate|].
      intros H. exfalso.
      assert (Hc : cellToRegion !!! c ∉ fixed) by (apply H; now left).
      apply inner_active in Hc. congruence.
Qed.

(** X21.  Multi-region meshes.  When the cell-to-region list does not have
    one entry per cell the matrix is left as it is.  When it does, the number
    of rows and the length of every row are kept, and the row of a point is
    set to zero exactly when one of the cells around the point belongs to a
    fixed region; every other row is left as it is. *)
Theorem fixed_regions_empty_rows (cellToRegion fixed : list label) (nCells : nat)
    (pointCells : list (list nat)) (IDW : list (list scalar)) :
  let IDW' := myMeshALE.fixRegions cellToRegion fixed nCells pointCells IDW in
  (length cellToRegion ≠ nCells → IDW' = IDW) ∧
  (length cellToRegion = nCells →
   length IDW' = length IDW ∧
   ∀ i row, IDW !! i = Some row →
     (∀ c, c ∈ pointCells !!! i → (c < nCells)%nat) →
     ((∃ c r, c ∈ pointCells !!! i ∧ cellToRegion !! c = Some r ∧ r ∈ fixed) →
      IDW' !! i = Some (replicate (length row) 0%float)) ∧
     (¬ (∃ c r, c ∈ pointCells !!! i ∧ cellToRegion !! c = Some r ∧ r ∈ fixed) →
      IDW' !! i = Some row)).
Proof.
  intros IDW'. subst IDW'. unfold myMeshALE.fixRegions. split.
  - intros Hne. apply Nat.eqb_neq in Hne. now rewrite Hne.
  - intros Heq. rewrite (proj2 (Nat.eqb_eq _ _) Heq). split.
    + apply length_imap.
    + intros i row Hrow Hrange. unfold scalar in *.
      assert (Hi : imap (λ i row,
                           if myMeshALE.isActive cellToRegion fixed (pointCells !!! i)
                           then row else replicate (length row) 0%float) IDW !! i =
                   Some (if myMeshALE.isActive cellToRegion fixed (pointCells !!! i)
                         then row else replicate (length row) 0%float)).
      { rewrite list_lookup_imap. now rewrite Hrow. }
      rewrite Hi. clear Hi. split.
      * intros (c & r & Hc & Hr & Hf).
        destruct (myMeshALE.isActive cellToRegion fixed (pointCells !!! i)) eqn:E;
          [|reflexivity].
        exfalso. rewrite isActive_spec in E. apply (E c Hc).
        now rewrite (list_lookup_total_correct _ _ _ Hr).
      * intros Hno.
        destruct (myMeshALE.isActive cellToRegion fixed (pointCells !!! i)) eqn:E;
          [reflexivity|].
        exfalso.
        enough (myMeshALE.isActive cellToRegion fixed (pointCells !!! i) = true)
          by congruence.
        apply isActive_spec. intros c Hc Hf. apply Hno.
        assert (Hlt : (c < length cellToRegion)%nat)
          by (rewrite Heq; now apply Hrange).
        destruct (lookup_lt_is_Some_2 cellToRegion c Hlt) as [r Hr].
        exists c, r. split; [exact Hc|]. split; [exact Hr|].
        now rewrite <- (list_lookup_total_correct _ _ _ Hr).
Qed.

(** X21 on three points and three cells, the last two cells in the fixed
    region 1: the row of the first point is kept, the one of the second is
    set to zero. *)
Lemma fixed_regions_empty_rows_witness :
  myMeshALE.fixRegions [0; 1; 1]%Z [1]%Z 3 [[0]; [0; 1]; [2]]
    [[0.5; 0.5]; [1]; [0.25; 0.75]]%float !! 0 = Some [0.5; 0.5]%float ∧
  myMeshALE.fixRegions [0; 1; 1]%Z [1]%Z 3 [[0]; [0; 1]; [2]]
    [[0.5; 0.5]; [1]; [0.25; 0.75]]%float !! 1 = Some [0%float].
Proof.
  destruct (fixed_regions_empty_rows [0; 1; 1]%Z [1]%Z 3 [[0]; [0; 1]; [2]]
              [[0.5; 0.5]; [1]; [0.25; 0.75]]%float) as (_ & H).
  destruct (H eq_refl) as (_ & Hrows). split.
  - destruct (Hrows 0 [0.5; 0.5]%float eq_refl) as (_ & Hkeep).
    + intros c Hc. apply list_elem_of_singleton in Hc as ->. lia.
    + apply Hkeep. intros (c & r & Hc & Hr & Hf).
      apply list_elem_of_singleton in Hc as ->.
      injection Hr as <-. apply list_elem_of_singleton in Hf. discriminate.
  - destruct (Hrows 1 [1%float] eq_refl) as (Hzero & _).
    + intros c Hc. apply elem_of_cons in Hc as [-> | Hc]; [lia|].
      apply list_elem_of_singleton in Hc as ->. lia.
    + apply Hzero. exists 1, 1%Z. split; [right; left|].
      split; [reflexivity | left].
Defined.
